(** * Mirror availability engine of [utils.py]

    A shallow embedding of the availability core of the mirrors service
    ([is_url_available], the helpers of the URL enumeration and
    [mirror_available] with its nested [_check_tasks]) and of
    [process_main_config], together with the properties its specification
    states about it and with further properties of the code.

    Python values are modelled as follows.
    - [str] is [string]; what the code does with strings ([replace],
      [in], truth value) is defined in [PyStr].
    - A [dict] whose iteration order is observed ([MirrorData.urls],
      [urls_for_checking]) is an association list in insertion order with
      unique keys; a [dict] that is only looked up is a [gmap].
    - A raised exception is a value [Raise e] of the [result] type; [e]
      carries the classes it is an instance of, which is what an [except]
      clause looks at.
    - Logging, HTTP requests and the calls on tasks are recorded in a trace
      of [event]s. *)

From Stdlib Require Import Ascii String DecimalString.
From stdpp Require Import gmap strings list.

(** ** Strings *)

Module PyStr.

(** The truth value of a string: [bool(s)]. *)
Definition nonempty (s : string) : bool :=
  match s with EmptyString => false | String _ _ => true end.

(** [s.startswith(p)] *)
Fixpoint startswith (p s : string) : bool :=
  match p, s with
  | EmptyString, _ => true
  | String _ _, EmptyString => false
  | String a p', String b s' => if Ascii.eqb a b then startswith p' s' else false
  end.

(** [sub in s] for strings. *)
Fixpoint str_in (sub s : string) : bool :=
  if startswith sub s then true
  else match s with
       | EmptyString => false
       | String _ s' => str_in sub s'
       end.

(** The scan of [s.replace(old, new)] for a non-empty [old]: left to
    right, an occurrence of [old] at the current position is replaced and
    the scan resumes behind it ([skip] counts the characters of the
    occurrence still to be passed over). *)
Fixpoint replace_scan (old new : string) (skip : nat) (s : string) : string :=
  match s with
  | EmptyString => EmptyString
  | String c s' =>
      match skip with
      | S k => replace_scan old new k s'
      | O =>
          if startswith old s
          then new +:+ replace_scan old new (String.length old - 1) s'
          else String c (replace_scan old new 0 s')
      end
  end.

(** With an empty [old], Python puts [new] before every character and at
    the end. *)
Fixpoint replace_empty (new s : string) : string :=
  match s with
  | EmptyString => new
  | String c s' => new +:+ String c (replace_empty new s')
  end.

(** [s.replace(old, new)] *)
Definition str_replace (old new s : string) : string :=
  match old with
  | EmptyString => replace_empty new s
  | String _ _ => replace_scan old new 0 s
  end.

(** [old] occurs in [s] as a substring. *)
Definition occurs (old s : string) : Prop :=
  ∃ a b, s = a +:+ old +:+ b.

(** [c] is a character of [s]. *)
Fixpoint char_in (c : ascii) (s : string) : bool :=
  match s with
  | EmptyString => false
  | String d s' => if Ascii.eqb c d then true else char_in c s'
  end.

End PyStr.

Import PyStr.

(** ** [urllib.parse.urljoin]

    [mirror_available] builds every URL with [urljoin] of the standard
    library. The model follows [urllib.parse] function by function
    ([urlsplit], [urlparse], [urlunsplit], [urlunparse], [urljoin]) on
    [str] arguments. Left out are the clean-up and the validation of the
    input that [urlsplit] does before it splits: leading control
    characters and tab or newline characters are not removed, and a host
    in brackets is not checked. *)

Module UrlParse.

Definition uses_relative : list string :=
  [EmptyString; "ftp"; "http"; "gopher"; "nntp"; "imap"; "wais"; "file";
   "https"; "shttp"; "mms"; "prospero"; "rtsp"; "rtspu"; "sftp"; "svn";
   "svn+ssh"; "ws"; "wss"].

Definition uses_netloc : list string :=
  [EmptyString; "ftp"; "http"; "gopher"; "nntp"; "telnet"; "imap"; "wais";
   "file"; "mms"; "https"; "shttp"; "snews"; "prospero"; "rtsp"; "rtspu";
   "rsync"; "svn"; "svn+ssh"; "sftp"; "nfs"; "git"; "git+ssh"; "ws"; "wss"].

Definition uses_params : list string :=
  [EmptyString; "ftp"; "hdl"; "prospero"; "http"; "imap"; "https"; "shttp";
   "rtsp"; "rtspu"; "sip"; "sips"; "mms"; "sftp"; "tel"].

Definition in_range (lo hi : nat) (c : ascii) : bool :=
  (lo <=? nat_of_ascii c)%nat && (nat_of_ascii c <=? hi)%nat.

Definition is_upper (c : ascii) : bool := in_range 65 90 c.
Definition is_alpha (c : ascii) : bool := is_upper c || in_range 97 122 c.
Definition is_digit (c : ascii) : bool := in_range 48 57 c.

(** [scheme_chars]: letters, digits and ["+-."]. *)
Definition is_scheme_char (c : ascii) : bool :=
  is_alpha c || is_digit c || char_in c "+-.".

Definition lower_char (c : ascii) : ascii :=
  if is_upper c then ascii_of_nat (nat_of_ascii c + 32) else c.

Fixpoint lower (s : string) : string :=
  match s with
  | EmptyString => EmptyString
  | String c s' => String (lower_char c) (lower s')
  end.

Fixpoint all_chars (p : ascii → bool) (s : string) : bool :=
  match s with
  | EmptyString => true
  | String c s' => p c && all_chars p s'
  end.

(** [s.split(c, 1)] when [c in s]: the text before the first [c] and the
    text behind it; [None] when [c] is not in [s]. *)
Fixpoint break_at (c : ascii) (s : string) : option (string * string) :=
  match s with
  | EmptyString => None
  | String d s' =>
      if Ascii.eqb d c then Some (EmptyString, s')
      else match break_at c s' with
           | Some (a, b) => Some (String d a, b)
           | None => None
           end
  end.

(** [s.split(c)] for a separator of one character. *)
Fixpoint str_split (c : ascii) (s : string) : list string :=
  match s with
  | EmptyString => [EmptyString]
  | String d s' =>
      if Ascii.eqb d c then EmptyString :: str_split c s'
      else match str_split c s' with
           | h :: t => String d h :: t
           | [] => [String d EmptyString]
           end
  end.

(** The longest prefix of [s] whose characters satisfy [p], and the rest. *)
Fixpoint span (p : ascii → bool) (s : string) : string * string :=
  match s with
  | EmptyString => (EmptyString, EmptyString)
  | String c s' =>
      if p c then let '(a, b) := span p s' in (String c a, b)
      else (EmptyString, s)
  end.

Fixpoint drop_chars (n : nat) (s : string) : string :=
  match n, s with
  | S k, String _ s' => drop_chars k s'
  | _, _ => s
  end.

(** [_splitnetloc(url, 2)] on the text behind the two slashes: the
    authority ends at the first of ["/?#"]. *)
Definition _splitnetloc (rest : string) : string * string :=
  span (λ c, negb (char_in c "/?#")) rest.

Record SplitResult := {
  sr_scheme : string; sr_netloc : string; sr_path : string;
  sr_query : string; sr_fragment : string }.

Definition urlsplit (url scheme : string) : SplitResult :=
  let '(scheme, url) :=
    match break_at ":" url with
    | Some (String c0 pre, rest) =>
        if is_alpha c0 && all_chars is_scheme_char (String c0 pre)
        then (lower (String c0 pre), rest)
        else (scheme, url)
    | _ => (scheme, url)
    end in
  let '(netloc, url) :=
    if startswith "//" url then _splitnetloc (drop_chars 2 url)
    else (EmptyString, url) in
  let '(url, fragment) :=
    match break_at "#" url with
    | Some (a, b) => (a, b)
    | None => (url, EmptyString)
    end in
  let '(url, query) :=
    match break_at "?" url with
    | Some (a, b) => (a, b)
    | None => (url, EmptyString)
    end in
  {| sr_scheme := scheme; sr_netloc := netloc; sr_path := url;
     sr_query := query; sr_fragment := fragment |}.

(** [_splitparams]: the parameters are what follows the first [;] of the
    last path segment. *)
Definition _splitparams (url : string) : string * string :=
  let segs := str_split "/" url in
  let front := take (List.length segs - 1) segs in
  match break_at ";" (List.last segs EmptyString) with
  | Some (a, b) => (String.concat "/" (front ++ [a]), b)
  | None => (url, EmptyString)
  end.

Record ParseResult := {
  pr_scheme : string; pr_netloc : string; pr_path : string;
  pr_params : string; pr_query : string; pr_fragment : string }.

Definition urlparse (url scheme : string) : ParseResult :=
  let r := urlsplit url scheme in
  let '(path, params) :=
    if bool_decide (sr_scheme r ∈ uses_params) && char_in ";" (sr_path r)
    then _splitparams (sr_path r)
    else (sr_path r, EmptyString) in
  {| pr_scheme := sr_scheme r; pr_netloc := sr_netloc r; pr_path := path;
     pr_params := params; pr_query := sr_query r;
     pr_fragment := sr_fragment r |}.

Definition urlunsplit (r : SplitResult) : string :=
  let url := sr_path r in
  let url :=
    if nonempty (sr_netloc r)
       || (nonempty (sr_scheme r) && bool_decide (sr_scheme r ∈ uses_netloc)
           && negb (startswith "//" url))
    then
      let url := if nonempty url && negb (startswith "/" url)
                 then "/" +:+ url else url in
      "//" +:+ sr_netloc r +:+ url
    else url in
  let url := if nonempty (sr_scheme r) then sr_scheme r +:+ ":" +:+ url else url in
  let url := if nonempty (sr_query r) then url +:+ "?" +:+ sr_query r else url in
  if nonempty (sr_fragment r) then url +:+ "#" +:+ sr_fragment r else url.

Definition urlunparse (r : ParseResult) : string :=
  let url := if nonempty (pr_params r)
             then pr_path r +:+ ";" +:+ pr_params r else pr_path r in
  urlunsplit {| sr_scheme := pr_scheme r; sr_netloc := pr_netloc r;
                sr_path := url; sr_query := pr_query r;
                sr_fragment := pr_fragment r |}.

(** [segments[1:-1] = filter(None, segments[1:-1])] *)
Definition drop_inner_empty (segments : list string) : list string :=
  match segments with
  | first :: rest =>
      match rest with
      | [] => segments
      | _ => first :: List.filter nonempty (take (List.length rest - 1) rest)
               ++ [List.last rest EmptyString]
      end
  | [] => []
  end.

(** The loop over [segments] that resolves ["."] and [".."]. *)
Definition resolve_segments (segments : list string) : list string :=
  foldl (λ resolved_path seg,
           if String.eqb seg ".." then take (List.length resolved_path - 1) resolved_path
           else if String.eqb seg "." then resolved_path
           else resolved_path ++ [seg])
        [] segments.

Definition urljoin (base url : string) : string :=
  if negb (nonempty base) then url
  else if negb (nonempty url) then base
  else
    let b := urlparse base EmptyString in
    let u := urlparse url (pr_scheme b) in
    if negb (String.eqb (pr_scheme u) (pr_scheme b))
       || negb (bool_decide (pr_scheme u ∈ uses_relative))
    then url
    else if bool_decide (pr_scheme u ∈ uses_netloc) && nonempty (pr_netloc u)
    then urlunparse u
    else
      let netloc := if bool_decide (pr_scheme u ∈ uses_netloc)
                    then pr_netloc b else pr_netloc u in
      if negb (nonempty (pr_path u)) && negb (nonempty (pr_params u))
      then
        urlunparse {| pr_scheme := pr_scheme u; pr_netloc := netloc;
                      pr_path := pr_path b; pr_params := pr_params b;
                      pr_query := if nonempty (pr_query u)
                                  then pr_query u else pr_query b;
                      pr_fragment := pr_fragment u |}
      else
        let base_parts := str_split "/" (pr_path b) in
        let base_parts :=
          if nonempty (List.last base_parts EmptyString)
          then take (List.length base_parts - 1) base_parts else base_parts in
        let segments :=
          if startswith "/" (pr_path u) then str_split "/" (pr_path u)
          else drop_inner_empty (base_parts ++ str_split "/" (pr_path u)) in
        let resolved_path := resolve_segments segments in
        let resolved_path :=
          if bool_decide (List.last segments EmptyString ∈ ["."; ".."])
          then resolved_path ++ [EmptyString] else resolved_path in
        let joined := String.concat "/" resolved_path in
        urlunparse {| pr_scheme := pr_scheme u; pr_netloc := netloc;
                      pr_path := if nonempty joined then joined else "/";
                      pr_params := pr_params u; pr_query := pr_query u;
                      pr_fragment := pr_fragment u |}.

End UrlParse.

(** ** Exceptions, results and events *)

(** The exception classes the module names, and any other class by name. *)
Inductive pyclass :=
  | TimeoutError | HTTPError | ClientError | UnicodeError | CancelledError
  | ValueError | StopIteration | RecursionError
  | OtherClass (name : string).

#[global] Instance pyclass_eq_dec : EqDecision pyclass.
Proof. solve_decision. Defined.

(** A raised exception: its class, the classes that class derives from,
    and [str(err)]. *)
Record exn := {
  exn_type : pyclass;
  exn_bases : list pyclass;
  exn_str : string }.

(** [isinstance(err, cls)], the test of an [except cls] clause. *)
Definition isinstance (err : exn) (cls : pyclass) : bool :=
  bool_decide (cls ∈ exn_type err :: exn_bases err).

Inductive result (A : Type) :=
  | Ret (a : A)
  | Raise (err : exn).

Arguments Ret {A} a.
Arguments Raise {A} err.

Inductive level := INFO | WARNING | ERROR.

(** The format strings of the log calls. *)
Inductive log_msg :=
  | MsgChecking          (* Checking mirror "%s"... *)
  | MsgPrivate           (* Mirror "%s" is private and won't be checked *)
  | MsgNoAddress         (* Mirror "%s" has no one address with protocols "%s" *)
  | MsgMirrorAvailable   (* Mirror "%s" is available *)
  | MsgUrlAvailable      (* Mirror "%(name)s" is available by url "%(url)s" *)
  | MsgUrlNotAvailable.  (* Mirror "%(name)s" is not available for version ... *)

Inductive log_args :=
  | Positional (args : list string)
  | Named (vars : list (string * string)).

Inductive http_method := GET | HEAD.

Inductive event :=
  | EvLog (lvl : level) (msg : log_msg) (args : log_args)
  | EvRequest (method : http_method) (url : string)
  | EvWait (done pending : list string)
  | EvCancel (url : string).

Definition is_request (ev : event) : bool :=
  match ev with EvRequest _ _ => true | _ => false end.

Definition is_log (ev : event) : bool :=
  match ev with EvLog _ _ _ => true | _ => false end.

(** ** Dictionaries in insertion order *)

(** [d[k] = v]: a key that is present keeps its place. *)
Fixpoint dict_set {V : Type} (d : list (string * V)) (k : string) (v : V)
  : list (string * V) :=
  match d with
  | [] => [(k, v)]
  | (k', v') :: d' =>
      if String.eqb k' k then (k', v) :: d' else (k', v') :: dict_set d' k v
  end.

(** [k in d] for a dictionary that is only looked up. *)
Definition dict_has {V : Type} (d : gmap string V) (k : string) : bool :=
  bool_decide (is_Some (d !! k)).

(** ** Data model

    [data_models] is not part of the module; the records hold the
    attributes the availability check reads. *)

Module RepoData.
Record t := {
  name : string;
  path : string;
  arches : list string;
  versions : list string;
  vault : bool }.
End RepoData.

Module MainConfig.
Record t := {
  versions : list string;
  duplicated_versions : gmap string string;
  vault_versions : list string;
  arches : list string;
  versions_arches : gmap string (list string);
  required_protocols : list string;
  repos : list RepoData.t }.
End MainConfig.

Module MirrorData.
Record t := {
  name : string;
  urls : list (string * string);
  cloud_type : string;
  private : bool }.
End MirrorData.

(** An entry of [WHITELIST_MIRRORS_PER_ARCH_REPO]. *)
Record whitelist_entry := {
  wl_arches : list string;
  wl_repos : list string }.

(** The module-level constants. *)
Record globals := {
  HEADERS : list (string * string);
  WHITELIST_MIRRORS : list string;
  WHITELIST_MIRRORS_PER_ARCH_REPO : gmap string whitelist_entry;
  NUMBER_OF_PROCESSES_FOR_MIRRORS_CHECK : nat;
  AIOHTTP_TIMEOUT : nat }.

Definition azure_entry : whitelist_entry :=
  {| wl_arches := ["x86_64"; "aarch64"];
     wl_repos := ["AppStream"; "BaseOS"; "HighAvailability"; "NFV";
                  "PowerTools"; "RT"; "ResilientStorage"; "devel"; "extras";
                  "plus"] |}.

Definition utils_globals : globals :=
  {| HEADERS :=
       [("User-Agent",
         "Mozilla/5.0 (Windows NT 6.1; WOW64) AppleWebKit/537.36 (KHTML, like Gecko) Chrome/56.0.2924.76 Safari/537.36");
        ("Upgrade-Insecure-Requests", "1");
        ("DNT", "1");
        ("Accept", "text/html,application/xhtml+xml,application/xml;q=0.9,*/*;q=0.8");
        ("Accept-Language", "en-US,en;q=0.5");
        ("Accept-Encoding", "gzip, deflate")];
     WHITELIST_MIRRORS := ["repo.almalinux.org"];
     WHITELIST_MIRRORS_PER_ARCH_REPO :=
       <["eastus.azure.repo.almalinux.org" := azure_entry]>
       (<["germanywestcentral.azure.repo.almalinux.org" := azure_entry]>
       (<["southeastasia.azure.repo.almalinux.org" := azure_entry]>
       (<["westus2.azure.repo.almalinux.org" := azure_entry]> ∅)));
     NUMBER_OF_PROCESSES_FOR_MIRRORS_CHECK := 15;
     AIOHTTP_TIMEOUT := 30 |}.

(** ** The prober: [is_url_available] *)

(** What the HTTP session gives back. [response_text] is the outcome of
    [await response.text()]; the outcome of [await http_session.request]
    is a response or the exception raised at that point, which is
    [CancelledError] when the task is cancelled while it waits. The prober
    does not read the status of a response: an HTTP error status reaches
    it as the exception that the session raises for it. *)
Record ClientResponse := {
  response_text : result string }.

Record ClientSession := {
  session_request :
    http_method → string → list (string * string) → result ClientResponse }.

(** The body of the [try] block up to the log call. *)
Definition fetch (g : globals) (http_session : ClientSession)
    (is_get_request : bool) (url : string) : result unit :=
  let method := if is_get_request then GET else HEAD in
  match session_request http_session method url (HEADERS g) with
  | Raise err => Raise err
  | Ret response =>
      if is_get_request then
        match response_text response with
        | Raise err => Raise err
        | Ret _ => Ret tt
        end
      else Ret tt
  end.

(** [str(err) or type(err)] *)
Definition err_text (err : exn) : string :=
  if nonempty (exn_str err) then exn_str err
  else match exn_type err with
       | TimeoutError => "TimeoutError"
       | HTTPError => "HTTPError"
       | ClientError => "ClientError"
       | UnicodeError => "UnicodeError"
       | CancelledError => "CancelledError"
       | ValueError => "ValueError"
       | StopIteration => "StopIteration"
       | RecursionError => "RecursionError"
       | OtherClass name => name
       end.

Definition is_url_available (g : globals) (url : string)
    (http_session : ClientSession) (is_get_request : bool)
    (success_msg : option log_msg)
    (success_msg_vars : option (list (string * string)))
    (error_msg : option log_msg)
    (error_msg_vars : option (list (string * string)))
  : result bool * list event :=
  let method := if is_get_request then GET else HEAD in
  match fetch g http_session is_get_request url with
  | Ret _ =>
      (Ret true,
       EvRequest method url ::
       match success_msg, success_msg_vars with
       | Some msg, Some vars => [EvLog INFO msg (Named vars)]
       | _, _ => []
       end)
  | Raise err =>
      if isinstance err TimeoutError || isinstance err HTTPError
         || isinstance err ClientError || isinstance err UnicodeError
      then
        (Ret false,
         EvRequest method url ::
         match error_msg, error_msg_vars with
         | Some msg, Some vars =>
             [EvLog WARNING msg (Named (dict_set vars "err" (err_text err)))]
         | _, _ => []
         end)
      else if isinstance err CancelledError
      then (Ret false, [EvRequest method url])
      else (Raise err, [EvRequest method url])
  end.

(** ** Enumeration of the URLs to check *)

Definition _get_arches_for_version (repo_arches global_arches : list string)
  : list string :=
  match repo_arches with
  | _ :: _ => repo_arches
  | [] => global_arches
  end.

Definition _is_permitted_arch_for_this_version_and_repo
    (version arch : string) (versions_arches : gmap string (list string))
  : bool :=
  if negb (dict_has versions_arches version) then true
  else if dict_has versions_arches version
          && bool_decide (arch ∈ default [] (versions_arches !! version))
  then true
  else false.

(** [next(address for protocol_type, address in urls.items()
          if protocol_type in required_protocols)];
    [None] stands for [StopIteration]. *)
Fixpoint next_address (items : list (string * string))
    (required_protocols : list string) : option string :=
  match items with
  | [] => None
  | (protocol_type, address) :: rest =>
      if bool_decide (protocol_type ∈ required_protocols) then Some address
      else next_address rest required_protocols
  end.

(** [mirror in WHITELIST_MIRRORS_PER_ARCH_REPO and
     repo not in WHITELIST_MIRRORS_PER_ARCH_REPO[mirror]['repos']] *)
Definition repo_not_whitelisted (g : globals) (mirror_name repo_name : string)
  : bool :=
  match WHITELIST_MIRRORS_PER_ARCH_REPO g !! mirror_name with
  | Some entry => negb (bool_decide (repo_name ∈ wl_repos entry))
  | None => false
  end.

(** The same test on the ['arches'] list of the entry. *)
Definition arch_not_whitelisted (g : globals) (mirror_name arch : string)
  : bool :=
  match WHITELIST_MIRRORS_PER_ARCH_REPO g !! mirror_name with
  | Some entry => negb (bool_decide (arch ∈ wl_arches entry))
  | None => false
  end.

(** A value of [urls_for_checking]. *)
Record url_info := {
  info_version : string;
  info_repo_path : string }.

Definition repo_path_for (repo_data : RepoData.t) (arch : string) : string :=
  str_replace "$basearch" arch (RepoData.path repo_data).

Definition url_for_check (mirror_url version repo_path : string) : string :=
  UrlParse.urljoin
    (UrlParse.urljoin
       (UrlParse.urljoin (mirror_url +:+ "/") version +:+ "/")
       repo_path +:+ "/")
    "repodata/repomd.xml".

Section Enumeration.

Variables (g : globals) (main_config : MainConfig.t)
          (mirror_info : MirrorData.t) (mirror_url : string).

(** The body of [for arch in arches]. *)
Definition arch_body (version : string) (repo_data : RepoData.t)
    (urls_for_checking : list (string * url_info)) (arch : string)
  : list (string * url_info) :=
  if arch_not_whitelisted g (MirrorData.name mirror_info) arch
  then urls_for_checking
  else if negb (_is_permitted_arch_for_this_version_and_repo
                  version arch (MainConfig.versions_arches main_config))
  then urls_for_checking
  else
    let repo_path := repo_path_for repo_data arch in
    dict_set urls_for_checking
      (url_for_check mirror_url version repo_path)
      {| info_version := version; info_repo_path := repo_path |}.

(** The body of [for repo_data in main_config.repos]. *)
Definition repo_body (version : string)
    (urls_for_checking : list (string * url_info)) (repo_data : RepoData.t)
  : list (string * url_info) :=
  if repo_not_whitelisted g (MirrorData.name mirror_info)
       (RepoData.name repo_data)
  then urls_for_checking
  else if RepoData.vault repo_data then urls_for_checking
  else
    let arches :=
      _get_arches_for_version (RepoData.arches repo_data)
        (MainConfig.arches main_config) in
    let repo_versions := RepoData.versions repo_data in
    if bool_decide (repo_versions ≠ [])
       && negb (bool_decide (version ∈ repo_versions))
    then urls_for_checking
    else foldl (arch_body version repo_data) urls_for_checking arches.

(** The body of [for version in main_config.versions]. *)
Definition version_body (urls_for_checking : list (string * url_info))
    (version : string) : list (string * url_info) :=
  if nonempty (MirrorData.cloud_type mirror_info) && str_in "beta" version
  then urls_for_checking
  else if dict_has (MainConfig.duplicated_versions main_config) version
  then urls_for_checking
  else foldl (repo_body version) urls_for_checking
         (MainConfig.repos main_config).

(** The dictionary [urls_for_checking] when the loops are done. *)
Definition urls_for_checking : list (string * url_info) :=
  foldl version_body [] (MainConfig.versions main_config).

End Enumeration.

(** ** Tasks and the event loop *)

(** The event loop decides when a probe completes: [completes_at url] is
    the turn of the loop at which the task probing [url] is done. Tasks of
    the same turn are found done together by [asyncio.wait]. *)
Record EventLoop := { completes_at : string → nat }.

(** A task made by [asyncio.ensure_future] from an [is_url_available]
    coroutine: [task_result] is what [future.result()] gives once the
    task is done (it raises what the coroutine raised), [task_events] is
    what the coroutine does when it is left to run to its end. *)
Record Task := {
  task_url : string;
  task_round : nat;
  task_result : result bool;
  task_events : list event }.

Definition ensure_future (loop : EventLoop) (url : string)
    (coro : result bool * list event) : Task :=
  {| task_url := url; task_round := completes_at loop url;
     task_result := fst coro; task_events := snd coro |}.

Definition empty_wait_error : exn :=
  {| exn_type := ValueError;
     exn_bases := [OtherClass "Exception"; OtherClass "BaseException"];
     exn_str := "Set of Tasks/Futures is empty." |}.

Definition recursion_error : exn :=
  {| exn_type := RecursionError;
     exn_bases := [OtherClass "RuntimeError"; OtherClass "Exception";
                   OtherClass "BaseException"];
     exn_str := "maximum recursion depth exceeded" |}.

Definition first_round (t : Task) (ts : list Task) : nat :=
  foldr (λ u r, Nat.min (task_round u) r) (task_round t) ts.

(** [await asyncio.wait(fs, return_when=asyncio.FIRST_COMPLETED)]: an
    empty [fs] is refused with [ValueError]; otherwise the call returns at
    the first turn at which a task of [fs] is done, with the tasks done at
    that turn and the others. The two sets are lists in the order of
    [fs]. *)
Definition asyncio_wait (fs : list Task) : result (list Task * list Task) :=
  match fs with
  | [] => Raise empty_wait_error
  | t :: ts =>
      let r := first_round t ts in
      Ret (filter (λ u, task_round u = r) fs,
           filter (λ u, task_round u ≠ r) fs)
  end.

(** How the loop [for future in done_tasks] ends. *)
Inductive scan_exit :=
  | AllTrue
  | FoundFalse
  | Raised (err : exn).

Fixpoint scan_done (done_tasks : list Task) : scan_exit :=
  match done_tasks with
  | [] => AllTrue
  | future :: rest =>
      match task_result future with
      | Raise err => Raised err
      | Ret false => FoundFalse
      | Ret true => scan_done rest
      end
  end.

(** What is observed when [asyncio.wait] returns: the log lines of the
    coroutines that are done, then the return of the call. *)
Definition wave_events (done_tasks pending_tasks : list Task) : list event :=
  flat_map (λ t, List.filter is_log (task_events t)) done_tasks
  ++ [EvWait (map task_url done_tasks) (map task_url pending_tasks)].

(** [_check_tasks]. The recursion is on the pending tasks, which are
    fewer at every call; [fuel] bounds its depth. *)
Fixpoint check_tasks_fuel (fuel : nat) (created_tasks : list Task)
  : result bool * list event :=
  match asyncio_wait created_tasks with
  | Raise err => (Raise err, [])
  | Ret (done_tasks, pending_tasks) =>
      let seen := wave_events done_tasks pending_tasks in
      match scan_done done_tasks with
      | FoundFalse =>
          (Ret false, seen ++ map (λ t, EvCancel (task_url t)) pending_tasks)
      | Raised err => (Raise err, seen)
      | AllTrue =>
          match pending_tasks with
          | [] => (Ret true, seen)
          | _ :: _ =>
              match fuel with
              | O => (Raise recursion_error, seen)
              | S fuel' =>
                  let '(r, tr) := check_tasks_fuel fuel' pending_tasks in
                  (r, seen ++ tr)
              end
          end
      end
  end.

Definition _check_tasks (created_tasks : list Task) : result bool * list event :=
  check_tasks_fuel (length created_tasks) created_tasks.

(** ** [mirror_available] *)

Definition mirror_available (g : globals) (loop : EventLoop)
    (mirror_info : MirrorData.t) (http_session : ClientSession)
    (main_config : MainConfig.t) : result (string * bool) * list event :=
  let mirror_name := MirrorData.name mirror_info in
  let checking := EvLog INFO MsgChecking (Positional [mirror_name]) in
  if MirrorData.private mirror_info then
    (Ret (mirror_name, true),
     [checking; EvLog INFO MsgPrivate (Positional [mirror_name])])
  else
    match next_address (MirrorData.urls mirror_info)
            (MainConfig.required_protocols main_config) with
    | None =>
        (Ret (mirror_name, false),
         [checking;
          EvLog ERROR MsgNoAddress
            (Positional (mirror_name
                         :: MainConfig.required_protocols main_config))])
    | Some mirror_url =>
        let tasks :=
          map (λ '(check_url, info),
                 ensure_future loop check_url
                   (is_url_available g check_url http_session true
                      (Some MsgUrlAvailable) None
                      (Some MsgUrlNotAvailable)
                      (Some [("name", mirror_name);
                             ("version", info_version info);
                             ("repo", info_repo_path info)])))
              (urls_for_checking g main_config mirror_info mirror_url) in
        let started :=
          flat_map (λ t, List.filter is_request (task_events t)) tasks in
        match _check_tasks tasks with
        | (Raise err, tr) => (Raise err, checking :: started ++ tr)
        | (Ret false, tr) => (Ret (mirror_name, false), checking :: started ++ tr)
        | (Ret true, tr) =>
            (Ret (mirror_name, true),
             checking :: started ++ tr
             ++ [EvLog INFO MsgMirrorAvailable (Positional [mirror_name])])
        end
    end.

(** ** Notions of the specification and sample inputs *)

(** The classes of failure that the specification expects of a probe:
    time-out, HTTP error, transport error, undecodable body, cancellation. *)
Definition expected_failure (err : exn) : bool :=
  isinstance err TimeoutError || isinstance err HTTPError
  || isinstance err ClientError || isinstance err UnicodeError
  || isinstance err CancelledError.


(** Sample exceptions: a connection error of aiohttp is a [ClientError];
    a [KeyError] is none of the expected classes. *)
Definition client_connector_error : exn :=
  {| exn_type := OtherClass "ClientConnectorError";
     exn_bases := [OtherClass "ClientOSError"; OtherClass "ClientConnectionError";
                   ClientError; OtherClass "OSError"; OtherClass "Exception";
                   OtherClass "BaseException"];
     exn_str := "Cannot connect to host" |}.

Definition key_error : exn :=
  {| exn_type := OtherClass "KeyError";
     exn_bases := [OtherClass "LookupError"; OtherClass "Exception";
                   OtherClass "BaseException"];
     exn_str := "url" |}.

Definition failing_session (err : exn) : ClientSession :=
  {| session_request := λ _ _ _, Raise err |}.

(** [d.get(k)] on a dictionary in insertion order. *)
Fixpoint dict_get {V : Type} (d : list (string * V)) (k : string) : option V :=
  match d with
  | [] => None
  | (k', v) :: d' => if String.eqb k' k then Some v else dict_get d' k
  end.

(** The selection of the base URL as the specification words it: the
    protocols are tried in the order of [requiredProtocols], and the URL
    of the first one the mirror has is taken. *)
Fixpoint spec_base_url (urls : list (string * string))
    (required_protocols : list string) : option string :=
  match required_protocols with
  | [] => None
  | protocol :: rest =>
      match dict_get urls protocol with
      | Some address => Some address
      | None => spec_base_url urls rest
      end
  end.

(** The module with another value for the constant [WHITELIST_MIRRORS]. *)
Definition with_whitelist_mirrors (names : list string) (g : globals) : globals :=
  {| HEADERS := HEADERS g;
     WHITELIST_MIRRORS := names;
     WHITELIST_MIRRORS_PER_ARCH_REPO := WHITELIST_MIRRORS_PER_ARCH_REPO g;
     NUMBER_OF_PROCESSES_FOR_MIRRORS_CHECK :=
       NUMBER_OF_PROCESSES_FOR_MIRRORS_CHECK g;
     AIOHTTP_TIMEOUT := AIOHTTP_TIMEOUT g |}.

(** Sample inputs. *)

Definition ok_session : ClientSession :=
  {| session_request := λ _ _ _,
       Ret {| response_text := Ret "<repomd/>" |} |}.

Definition same_turn : EventLoop := {| completes_at := λ _, 0 |}.

Definition two_protocol_mirror : MirrorData.t :=
  {| MirrorData.name := "mirror.example.org";
     MirrorData.urls := [("http", "http://mirror.example.org/almalinux");
                         ("https", "https://mirror.example.org/almalinux")];
     MirrorData.cloud_type := EmptyString;
     MirrorData.private := false |}.

Definition example_mirror : MirrorData.t :=
  {| MirrorData.name := "example.org";
     MirrorData.urls := [("https", "https://example.org/almalinux")];
     MirrorData.cloud_type := EmptyString;
     MirrorData.private := false |}.

Definition private_mirror : MirrorData.t :=
  {| MirrorData.name := "intranet.example.org";
     MirrorData.urls := [("https", "https://intranet.example.org/almalinux")];
     MirrorData.cloud_type := EmptyString;
     MirrorData.private := true |}.

Definition rsync_mirror : MirrorData.t :=
  {| MirrorData.name := "rsync.example.org";
     MirrorData.urls := [("rsync", "rsync://rsync.example.org/almalinux")];
     MirrorData.cloud_type := EmptyString;
     MirrorData.private := false |}.

Definition baseos : RepoData.t :=
  {| RepoData.name := "BaseOS"; RepoData.path := "$basearch/os";
     RepoData.arches := []; RepoData.versions := [];
     RepoData.vault := false |}.

Definition example_config : MainConfig.t :=
  {| MainConfig.versions := ["8"];
     MainConfig.duplicated_versions := ∅;
     MainConfig.vault_versions := [];
     MainConfig.arches := ["x86_64"];
     MainConfig.versions_arches := ∅;
     MainConfig.required_protocols := ["https"];
     MainConfig.repos := [baseos] |}.

Definition prefer_https_config : MainConfig.t :=
  {| MainConfig.versions := ["8"];
     MainConfig.duplicated_versions := ∅;
     MainConfig.vault_versions := [];
     MainConfig.arches := ["x86_64"];
     MainConfig.versions_arches := ∅;
     MainConfig.required_protocols := ["https"; "http"];
     MainConfig.repos := [baseos] |}.

Definition no_repos_config : MainConfig.t :=
  {| MainConfig.versions := ["8"];
     MainConfig.duplicated_versions := ∅;
     MainConfig.vault_versions := [];
     MainConfig.arches := ["x86_64"];
     MainConfig.versions_arches := ∅;
     MainConfig.required_protocols := ["https"];
     MainConfig.repos := [] |}.

(** A configuration with only the repos whose name is in [allowed]. *)
Definition restrict_repos (allowed : list string) (main_config : MainConfig.t)
  : MainConfig.t :=
  {| MainConfig.versions := MainConfig.versions main_config;
     MainConfig.duplicated_versions := MainConfig.duplicated_versions main_config;
     MainConfig.vault_versions := MainConfig.vault_versions main_config;
     MainConfig.arches := MainConfig.arches main_config;
     MainConfig.versions_arches := MainConfig.versions_arches main_config;
     MainConfig.required_protocols := MainConfig.required_protocols main_config;
     MainConfig.repos :=
       filter (λ repo_data, RepoData.name repo_data ∈ allowed)
              (MainConfig.repos main_config) |}.

(** The candidate [(url, info)] is the one made for [version],
    [repo_data] and [arch]. *)
Definition candidate_of (mirror_url version : string) (repo_data : RepoData.t)
    (arch : string) (candidate : string * url_info) : Prop :=
  candidate
  = (url_for_check mirror_url version (repo_path_for repo_data arch),
     {| info_version := version;
        info_repo_path := repo_path_for repo_data arch |}).

(** A candidate that the override [entry] permits: it is made for a
    version and a repo of the configuration, the name of the repo is in
    the ['repos'] list of [entry], and the arch is an arch of that repo
    that is in the ['arches'] list of [entry]. *)
Definition permitted (main_config : MainConfig.t) (mirror_url : string)
    (entry : whitelist_entry) (candidate : string * url_info) : Prop :=
  ∃ version repo_data arch,
    version ∈ MainConfig.versions main_config
    ∧ repo_data ∈ MainConfig.repos main_config
    ∧ RepoData.name repo_data ∈ wl_repos entry
    ∧ arch ∈ _get_arches_for_version (RepoData.arches repo_data)
               (MainConfig.arches main_config)
    ∧ arch ∈ wl_arches entry
    ∧ candidate_of mirror_url version repo_data arch candidate.

Definition azure_mirror : MirrorData.t :=
  {| MirrorData.name := "eastus.azure.repo.almalinux.org";
     MirrorData.urls := [("https", "https://eastus.azure.repo.almalinux.org/almalinux")];
     MirrorData.cloud_type := "azure";
     MirrorData.private := false |}.

Definition crb : RepoData.t :=
  {| RepoData.name := "CRB"; RepoData.path := "CRB/$basearch/os";
     RepoData.arches := []; RepoData.versions := [];
     RepoData.vault := false |}.

Definition many_arches_config : MainConfig.t :=
  {| MainConfig.versions := ["8"; "9"; "9-beta"];
     MainConfig.duplicated_versions := ∅;
     MainConfig.vault_versions := [];
     MainConfig.arches := ["x86_64"; "aarch64"; "ppc64le"; "s390x"];
     MainConfig.versions_arches := ∅;
     MainConfig.required_protocols := ["https"];
     MainConfig.repos := [baseos; crb] |}.

(** The URLs of the tasks that the calls of [asyncio.wait] in a trace
    returned as done, and the URLs of the tasks cancelled in it. *)
Definition awaited (tr : list event) : list string :=
  flat_map (λ ev, match ev with EvWait done _ => done | _ => [] end) tr.

Definition cancelled (tr : list event) : list string :=
  flat_map (λ ev, match ev with EvCancel url => [url] | _ => [] end) tr.

Definition returned_true (t : Task) : Prop := task_result t = Ret true.


(** Five probes in the order in which they complete; the third fails. *)
Definition probe (url : string) (turn : nat) (outcome : bool) : Task :=
  {| task_url := url; task_round := turn; task_result := Ret outcome;
     task_events := [EvRequest GET url] |}.

Definition five_probes : list Task :=
  [probe "u1" 1 true; probe "u2" 2 true; probe "u3" 3 false;
   probe "u4" 4 true; probe "u5" 5 true].

(** ** The conditions of the enumeration

    The loops of [mirror_available] skip a version, a repo or an arch
    with [continue]; what is not skipped is checked. *)

(** The version passes the two tests at the head of the loop over the
    versions. *)
Definition version_checked (main_config : MainConfig.t)
    (mirror_info : MirrorData.t) (version : string) : Prop :=
  (MirrorData.cloud_type mirror_info ≠ EmptyString → ¬ occurs "beta" version)
  ∧ MainConfig.duplicated_versions main_config !! version = None.

(** The repo passes the three tests of the loop over the repos. *)
Definition repo_checked (g : globals) (mirror_info : MirrorData.t)
    (version : string) (repo_data : RepoData.t) : Prop :=
  (∀ entry,
     WHITELIST_MIRRORS_PER_ARCH_REPO g !! MirrorData.name mirror_info
     = Some entry →
     RepoData.name repo_data ∈ wl_repos entry)
  ∧ RepoData.vault repo_data = false
  ∧ (RepoData.versions repo_data = [] ∨ version ∈ RepoData.versions repo_data).

(** The arch passes the two tests of the loop over the arches. *)
Definition arch_checked (g : globals) (main_config : MainConfig.t)
    (mirror_info : MirrorData.t) (version arch : string) : Prop :=
  (∀ entry,
     WHITELIST_MIRRORS_PER_ARCH_REPO g !! MirrorData.name mirror_info
     = Some entry →
     arch ∈ wl_arches entry)
  ∧ (∀ allowed,
       MainConfig.versions_arches main_config !! version = Some allowed →
       arch ∈ allowed).

(** A version, a repo and an arch for which the innermost loop body is
    reached. *)
Record eligible (g : globals) (main_config : MainConfig.t)
    (mirror_info : MirrorData.t) (version : string) (repo_data : RepoData.t)
    (arch : string) : Prop := {
  eligible_version : version ∈ MainConfig.versions main_config;
  eligible_version_checked : version_checked main_config mirror_info version;
  eligible_repo : repo_data ∈ MainConfig.repos main_config;
  eligible_repo_checked : repo_checked g mirror_info version repo_data;
  eligible_arch :
    arch ∈ _get_arches_for_version (RepoData.arches repo_data)
             (MainConfig.arches main_config);
  eligible_arch_checked : arch_checked g main_config mirror_info version arch }.

(** The entry of [urls_for_checking] that the innermost loop body writes. *)
Definition candidate (mirror_url version : string) (repo_data : RepoData.t)
    (arch : string) : string * url_info :=
  (url_for_check mirror_url version (repo_path_for repo_data arch),
   {| info_version := version;
      info_repo_path := repo_path_for repo_data arch |}).

(** The keys of a dictionary in insertion order. *)
Definition keys {V : Type} (d : list (string * V)) : list string := map fst d.

(** The number of times the innermost loop is entered for one version,
    at most. *)
Definition arches_per_version (main_config : MainConfig.t) : nat :=
  sum_list
    (map (λ repo_data,
            length (_get_arches_for_version (RepoData.arches repo_data)
                      (MainConfig.arches main_config)))
         (MainConfig.repos main_config)).

Definition vault_repo : RepoData.t :=
  {| RepoData.name := "BaseOS"; RepoData.path := "vault/$basearch/os";
     RepoData.arches := []; RepoData.versions := [];
     RepoData.vault := true |}.

Definition only_vault_config : MainConfig.t :=
  {| MainConfig.versions := ["8"];
     MainConfig.duplicated_versions := ∅;
     MainConfig.vault_versions := [];
     MainConfig.arches := ["x86_64"];
     MainConfig.versions_arches := ∅;
     MainConfig.required_protocols := ["https"];
     MainConfig.repos := [vault_repo] |}.

(** The tasks that [mirror_available] makes for the base URL
    [mirror_url], one per entry of the enumeration. *)
Definition launched (g : globals) (loop : EventLoop)
    (mirror_info : MirrorData.t) (http_session : ClientSession)
    (main_config : MainConfig.t) (mirror_url : string) : list Task :=
  map (λ '(check_url, info),
         ensure_future loop check_url
           (is_url_available g check_url http_session true
              (Some MsgUrlAvailable) None (Some MsgUrlNotAvailable)
              (Some [("name", MirrorData.name mirror_info);
                     ("version", info_version info);
                     ("repo", info_repo_path info)])))
      (urls_for_checking g main_config mirror_info mirror_url).

Definition is_wait (ev : event) : bool :=
  match ev with EvWait _ _ => true | _ => false end.

(** The number of calls of [asyncio.wait] that returned in a trace. *)
Definition waits (tr : list event) : nat := length (List.filter is_wait tr).

Definition unicode_decode_error : exn :=
  {| exn_type := OtherClass "UnicodeDecodeError";
     exn_bases := [UnicodeError; ValueError; OtherClass "Exception";
                   OtherClass "BaseException"];
     exn_str := "'utf-8' codec can't decode byte 0xff" |}.

(** A session whose responses have a body that cannot be decoded. *)
Definition garbled_session : ClientSession :=
  {| session_request := λ _ _ _,
       Ret {| response_text := Raise unicode_decode_error |} |}.


(** An event loop on which the probes complete one after the other, the
    probe of the longest URL first. *)
Definition longest_first : EventLoop :=
  {| completes_at := λ url, 1000 - String.length url |}.

(** A session that reaches the [x86_64] trees only. *)
Definition x86_only_session : ClientSession :=
  {| session_request := λ _ url _,
       if str_in "x86_64" url
       then Ret {| response_text := Ret "<repomd/>" |}
       else Raise client_connector_error |}.

Definition two_arches_config : MainConfig.t :=
  {| MainConfig.versions := ["8"; "9"];
     MainConfig.duplicated_versions := ∅;
     MainConfig.vault_versions := [];
     MainConfig.arches := ["x86_64"; "aarch64"];
     MainConfig.versions_arches := ∅;
     MainConfig.required_protocols := ["https"];
     MainConfig.repos := [baseos] |}.

(** ** [process_main_config]

    [yaml_data] is the content of the configuration file after the JSON
    schema has let it through. The schema is not part of the module: the
    keys that the code reads with [yaml_data[...]] are the fields of the
    records, the keys that it reads with [.get] are options. *)

(** A scalar that the code passes to [str]: an integer or a string of the
    YAML file. *)
Inductive scalar :=
  | SInt (n : Z)
  | SStr (s : string).

(** [str(x)] *)
Definition py_str (x : scalar) : string :=
  match x with
  | SInt n => NilZero.string_of_int (Z.to_int n)
  | SStr s => s
  end.

Module YamlRepo.
Record t := {
  name : string;
  path : string;
  arches : option (list string);
  versions : option (list scalar);
  vault : option bool }.
End YamlRepo.

Module YamlConfig.
Record t := {
  allowed_outdate : scalar;
  mirrors_dir : string;
  vault_mirror : option string;
  versions : list scalar;
  duplicated_versions : list (scalar * scalar);
  vault_versions : option (list scalar);
  arches : list string;
  versions_arches : option (gmap string (list string));
  required_protocols : list string;
  repos : list YamlRepo.t }.
End YamlConfig.

(** The [MainConfig] that [process_main_config] builds: the attributes
    that the availability check reads, and the three that it does not. *)
Module ProcessedConfig.
Record t := {
  allowed_outdate : scalar;
  mirrors_dir : string;
  vault_mirror : option string;
  main : MainConfig.t }.
End ProcessedConfig.

(** [ValidationError(message)]; [exn_str] holds [err.message]. *)
Definition validation_error (message : string) : exn :=
  {| exn_type := OtherClass "ValidationError";
     exn_bases := [OtherClass "_Error"; OtherClass "Exception";
                   OtherClass "BaseException"];
     exn_str := message |}.

(** The double quote. *)
Definition dq : string := String "034"%char EmptyString.

(** The message of [_process_repo_attributes]. *)
Definition absent_message (repo_arch repo_name : string)
    (attributes : list string) : string :=
  "Attr " +:+ dq +:+ repo_arch +:+ dq +:+ " of repo " +:+ dq +:+ repo_name
  +:+ dq +:+ " is absent in the main list of attrs " +:+ dq
  +:+ String.concat ", " attributes +:+ dq.

(** The loop [for repo_arch in repo_attributes]. *)
Fixpoint attributes_loop (repo_name : string)
    (repo_attributes attributes : list string) : result unit :=
  match repo_attributes with
  | [] => Ret tt
  | repo_arch :: rest =>
      if bool_decide (repo_arch ∈ attributes)
      then attributes_loop repo_name rest attributes
      else Raise (validation_error
                    (absent_message repo_arch repo_name attributes))
  end.

Definition _process_repo_attributes (repo_name : string)
    (repo_attributes attributes : list string) : result (list string) :=
  match attributes_loop repo_name repo_attributes attributes with
  | Raise err => Raise err
  | Ret _ => Ret repo_attributes
  end.

(** The [RepoData(...)] of the list comprehension over
    [yaml_data['repos']]. *)
Definition process_repo (yaml_data : YamlConfig.t) (repo : YamlRepo.t)
  : result RepoData.t :=
  match _process_repo_attributes (YamlRepo.name repo)
          (default [] (YamlRepo.arches repo))
          (YamlConfig.arches yaml_data) with
  | Raise err => Raise err
  | Ret arches =>
      match _process_repo_attributes (YamlRepo.name repo)
              (map py_str (default [] (YamlRepo.versions repo)))
              (map py_str (YamlConfig.versions yaml_data)) with
      | Raise err => Raise err
      | Ret versions =>
          Ret {| RepoData.name := YamlRepo.name repo;
                 RepoData.path := YamlRepo.path repo;
                 RepoData.arches := arches;
                 RepoData.versions := versions;
                 RepoData.vault := default false (YamlRepo.vault repo) |}
      end
  end.

Fixpoint process_repos (yaml_data : YamlConfig.t) (repos : list YamlRepo.t)
  : result (list RepoData.t) :=
  match repos with
  | [] => Ret []
  | repo :: rest =>
      match process_repo yaml_data repo with
      | Raise err => Raise err
      | Ret repo_data =>
          match process_repos yaml_data rest with
          | Raise err => Raise err
          | Ret repos_data => Ret (repo_data :: repos_data)
          end
      end
  end.

(** [{str(major): str(minor) for major, minor in ....items()}]: of two
    items with the same key the later one stays. *)
Definition str_dict (items : list (scalar * scalar)) : gmap string string :=
  foldl (λ d item, <[py_str item.1 := py_str item.2]> d) ∅ items.

Definition process_main_config (yaml_data : YamlConfig.t)
  : result (option ProcessedConfig.t * option string) :=
  let vault_versions :=
    map py_str (default [] (YamlConfig.vault_versions yaml_data)) in
  let duplicated_versions :=
    str_dict (YamlConfig.duplicated_versions yaml_data) in
  match process_repos yaml_data (YamlConfig.repos yaml_data) with
  | Ret repos =>
      Ret (Some
             {| ProcessedConfig.allowed_outdate :=
                  YamlConfig.allowed_outdate yaml_data;
                ProcessedConfig.mirrors_dir := YamlConfig.mirrors_dir yaml_data;
                ProcessedConfig.vault_mirror :=
                  YamlConfig.vault_mirror yaml_data;
                ProcessedConfig.main :=
                  {| MainConfig.versions :=
                       map py_str (YamlConfig.versions yaml_data);
                     MainConfig.duplicated_versions := duplicated_versions;
                     MainConfig.vault_versions := vault_versions;
                     MainConfig.arches := YamlConfig.arches yaml_data;
                     MainConfig.versions_arches :=
                       default ∅ (YamlConfig.versions_arches yaml_data);
                     MainConfig.required_protocols :=
                       YamlConfig.required_protocols yaml_data;
                     MainConfig.repos := repos |} |},
           None)
  | Raise err =>
      if isinstance err (OtherClass "ValidationError")
      then Ret (None, Some (exn_str err))
      else Raise err
  end.

(** A repo of the file asks only for arches and versions of the main
    lists. *)
Definition repo_within (yaml_data : YamlConfig.t) (repo : YamlRepo.t) : Prop :=
  default [] (YamlRepo.arches repo) ⊆ YamlConfig.arches yaml_data
  ∧ map py_str (default [] (YamlRepo.versions repo))
    ⊆ map py_str (YamlConfig.versions yaml_data).

Definition yaml_baseos : YamlRepo.t :=
  {| YamlRepo.name := "BaseOS"; YamlRepo.path := "BaseOS/$basearch/os";
     YamlRepo.arches := None; YamlRepo.versions := None;
     YamlRepo.vault := None |}.

Definition yaml_nfv : YamlRepo.t :=
  {| YamlRepo.name := "NFV"; YamlRepo.path := "NFV/$basearch/os";
     YamlRepo.arches := Some ["x86_64"]; YamlRepo.versions := Some [SInt 9];
     YamlRepo.vault := None |}.

Definition yaml_rt : YamlRepo.t :=
  {| YamlRepo.name := "RT"; YamlRepo.path := "RT/$basearch/os";
     YamlRepo.arches := Some ["x86_64"; "riscv64"];
     YamlRepo.versions := Some [SInt 10];
     YamlRepo.vault := None |}.

Definition yaml_config (repos : list YamlRepo.t) : YamlConfig.t :=
  {| YamlConfig.allowed_outdate := SStr "25h";
     YamlConfig.mirrors_dir := "mirrors.d";
     YamlConfig.vault_mirror := None;
     YamlConfig.versions := [SInt 8; SStr "9"; SStr "9-beta"];
     YamlConfig.duplicated_versions := [(SInt 8, SStr "8.10")];
     YamlConfig.vault_versions := None;
     YamlConfig.arches := ["x86_64"; "aarch64"];
     YamlConfig.versions_arches := None;
     YamlConfig.required_protocols := ["https"; "http"];
     YamlConfig.repos := repos |}.

(** ** Plain URLs *)

(** A printable ASCII character that has no meaning of its own in a URL. *)
Definition plain_char (c : ascii) : bool :=
  UrlParse.in_range 33 126 c && negb (char_in c ":/?#;[]").

(** A path segment of plain characters that is not empty and is neither
    [.] nor [..]. *)
Definition plain_segment (s : string) : Prop :=
  s ≠ EmptyString ∧ UrlParse.all_chars plain_char s = true
  ∧ s ≠ "." ∧ s ≠ "..".

(** A host name of plain characters. *)
Definition plain_host (s : string) : Prop :=
  s ≠ EmptyString ∧ UrlParse.all_chars plain_char s = true.

(** [scheme://host/d1/.../dn] *)
Definition plain_url (scheme host : string) (dirs : list string) : string :=
  scheme +:+ "://" +:+ host +:+ String.concat "/" (EmptyString :: dirs).

(** A segment of a repo path after the substitution: the placeholder
    becomes the arch, another segment stays. *)
Definition subst_arch (arch seg : string) : string :=
  if String.eqb seg "$basearch" then arch else seg.

(** * Properties *)

(** ** Facts about strings *)

Lemma str_app_cons (c : ascii) (a b : string) :
  String c a +:+ b = String c (a +:+ b).
Proof. done. Qed.

Lemma str_app_nil_l (s : string) : EmptyString +:+ s = s.
Proof. done. Qed.

Lemma str_app_nil_r (s : string) : s +:+ EmptyString = s.
Proof.
  induction s as [|c s IH]; [done|]. by rewrite str_app_cons, IH.
Qed.

Lemma str_app_assoc (a b c : string) : (a +:+ b) +:+ c = a +:+ b +:+ c.
Proof.
  induction a as [|x a IH]; [done|]. by rewrite !str_app_cons, IH.
Qed.

Lemma str_length_app (a b : string) :
  String.length (a +:+ b) = String.length a + String.length b.
Proof.
  induction a as [|x a IH]; [done|]. rewrite str_app_cons. cbn. by rewrite IH.
Qed.

Lemma startswith_app (p s : string) : startswith p (p +:+ s) = true.
Proof.
  induction p as [|c p IH]; [by destruct s|].
  rewrite str_app_cons. cbn. by rewrite Ascii.eqb_refl.
Qed.

Lemma startswith_split (p s : string) :
  startswith p s = true → ∃ r, s = p +:+ r.
Proof.
  revert s. induction p as [|c p IH]; intros s H.
  - by exists s.
  - destruct s as [|d s]; [done|]. cbn in H.
    destruct (Ascii.eqb c d) eqn:E; [|done].
    apply Ascii.eqb_eq in E as ->.
    destruct (IH _ H) as [r ->]. by exists r.
Qed.

(** A prefix of [p +:+ t] either lies inside [p] or covers [p] and goes on
    as a prefix of [t]. *)
Lemma startswith_app_cases (a p t : string) :
  startswith a (p +:+ t) = true →
  (∃ r, p = a +:+ r) ∨ (∃ q, a = p +:+ q ∧ startswith q t = true).
Proof.
  revert a. induction p as [|c p IH]; intros a H.
  - right. by exists a.
  - destruct a as [|d a]; [left; by exists (String c p)|].
    rewrite str_app_cons in H. cbn in H. destruct (Ascii.eqb d c) eqn:E; [|done].
    apply Ascii.eqb_eq in E as ->.
    destruct (IH _ H) as [[r ->]|[q [-> Hq]]].
    + left. by exists r.
    + right. by exists q.
Qed.

Lemma occurs_cons (old : string) (c : ascii) (s : string) :
  occurs old s → occurs old (String c s).
Proof. intros (a & b & ->). by exists (String c a), b. Qed.

Lemma startswith_occurs (old s : string) :
  startswith old s = true → occurs old s.
Proof. intros [r ->]%startswith_split. by exists EmptyString, r. Qed.

Lemma str_in_occurs (sub s : string) : str_in sub s = true ↔ occurs sub s.
Proof.
  split.
  - induction s as [|c s IH]; cbn.
    + destruct (startswith sub EmptyString) eqn:E; [|done].
      intros _. by apply startswith_occurs.
    + destruct (startswith sub (String c s)) eqn:E.
      * intros _. by apply startswith_occurs.
      * intros H. by apply occurs_cons, IH.
  - intros (a & b & ->). induction a as [|c a IH].
    + change (EmptyString +:+ sub +:+ b) with (sub +:+ b).
      destruct (sub +:+ b) eqn:E; cbn; rewrite <- E, startswith_app; done.
    + rewrite str_app_cons. cbn.
      by destruct (startswith sub (String c (a +:+ sub +:+ b))).
Qed.

(** Passing over the rest of an occurrence. *)
Lemma replace_scan_skip (old new a b : string) :
  replace_scan old new (String.length a) (a +:+ b) = replace_scan old new 0 b.
Proof.
  induction a as [|c a IH]; [by destruct b|]. by rewrite str_app_cons.
Qed.

(** A string without an occurrence of [old] is left as it is. *)
Lemma replace_scan_absent (old new s : string) :
  ¬ occurs old s → replace_scan old new 0 s = s.
Proof.
  induction s as [|c s IH]; intros H; [done|].
  cbn -[startswith]. destruct (startswith old (String c s)) eqn:E.
  - exfalso. by apply H, startswith_occurs.
  - rewrite IH; [done|]. intros Ho. by apply H, occurs_cons.
Qed.

Section Replace_separator.

(** The replaced string is [String c0 old'] and its first character does
    not come back in [old']; this is the case for ["$basearch"]. Two
    occurrences of such a string never overlap. *)
Variables (c0 : ascii) (old' new : string).
Hypothesis c0_fresh : char_in c0 old' = false.

Let old := String c0 old'.

Lemma char_in_app_cons (a b : string) : char_in c0 (a +:+ String c0 b) = true.
Proof.
  induction a as [|d a IH].
  - rewrite str_app_nil_l. cbn. by rewrite Ascii.eqb_refl.
  - rewrite str_app_cons. cbn. by destruct (Ascii.eqb c0 d).
Qed.

(** No occurrence of [old] starts inside a piece [p] that is free of it
    and runs into the occurrence that follows [p]. *)
Lemma no_straddle (c : ascii) (p rest : string) :
  ¬ occurs old (String c p) →
  startswith old (String c p +:+ old +:+ rest) = false.
Proof.
  intros Hfree. destruct (startswith old _) eqn:E; [|done]. exfalso.
  apply startswith_app_cases in E as [[r Hr]|[q [Hq Hpre]]].
  - apply Hfree. exists EmptyString, r. by rewrite Hr.
  - unfold old in Hq. rewrite str_app_cons in Hq.
    injection Hq as Hc Hq. subst c.
    destruct q as [|d q].
    + apply Hfree. exists EmptyString, EmptyString.
      rewrite str_app_nil_r in Hq. rewrite str_app_nil_l, str_app_nil_r.
      unfold old. by rewrite Hq.
    + unfold old in Hpre. rewrite str_app_cons in Hpre. cbn in Hpre.
      destruct (Ascii.eqb d c0) eqn:Ed; [|done].
      apply Ascii.eqb_eq in Ed as ->.
      pose proof (char_in_app_cons p q) as Hin.
      rewrite <- Hq in Hin. congruence.
Qed.

Lemma replace_scan_piece (p rest : string) :
  ¬ occurs old p →
  replace_scan old new 0 (p +:+ old +:+ rest)
  = p +:+ new +:+ replace_scan old new 0 rest.
Proof.
  induction p as [|c p IH]; intros Hfree.
  - change (EmptyString +:+ old +:+ rest) with (String c0 (old' +:+ rest)).
    change (EmptyString +:+ new +:+ ?x) with (new +:+ x).
    cbn -[startswith].
    change (String c0 (old' +:+ rest)) with (old +:+ rest).
    rewrite startswith_app. f_equal.
    replace (String.length old' - 0) with (String.length old') by lia.
    apply replace_scan_skip.
  - pose proof (no_straddle c p rest Hfree) as Hno.
    rewrite str_app_cons in Hno |- *. cbn -[startswith]. rewrite Hno.
    rewrite IH; [done|]. intros Ho. by apply Hfree, occurs_cons.
Qed.

(** Every occurrence that separates two pieces is replaced. *)
Lemma replace_scan_concat (p : string) (ps : list string) :
  Forall (λ q, ¬ occurs old q) (p :: ps) →
  replace_scan old new 0 (String.concat old (p :: ps))
  = String.concat new (p :: ps).
Proof.
  revert p. induction ps as [|q ps IH]; intros p Hall.
  - cbn. apply replace_scan_absent. by inversion Hall.
  - inversion Hall as [|? ? Hp Hrest]; subst.
    change (String.concat old (p :: q :: ps))
      with (p +:+ old +:+ String.concat old (q :: ps)).
    change (String.concat new (p :: q :: ps))
      with (p +:+ new +:+ String.concat new (q :: ps)).
    rewrite replace_scan_piece by done. by rewrite IH.
Qed.

End Replace_separator.

(** ** [urljoin] on sample inputs *)

Example urljoin_sample1 :
  UrlParse.urljoin "https://example.org/almalinux/" "8"
  = "https://example.org/almalinux/8".
Proof. vm_compute. reflexivity. Qed.

Example urljoin_sample2 :
  UrlParse.urljoin "https://example.org/a/b" "../c/./d?x=1#f"
  = "https://example.org/c/d?x=1#f".
Proof. vm_compute. reflexivity. Qed.

Example urljoin_sample3 :
  UrlParse.urljoin "https://example.org/a/b/" "/c" = "https://example.org/c".
Proof. vm_compute. reflexivity. Qed.

Example urljoin_sample4 :
  UrlParse.urljoin "https://example.org/a/b/" "http://other/x" = "http://other/x".
Proof. vm_compute. reflexivity. Qed.

(** ** The [$basearch] substitution *)

Lemma occurs_suffix (old a s : string) : occurs old s → occurs old (a +:+ s).
Proof.
  induction a as [|c a IH]; [done|].
  intros H. rewrite str_app_cons. by apply occurs_cons, IH.
Qed.

(** An occurrence in [String c s] that is not one of [s] is at the front. *)
Lemma occurs_cons_inv (old : string) (c : ascii) (s : string) :
  occurs old (String c s) → occurs old s ∨ startswith old (String c s) = true.
Proof.
  intros (a & b & E). destruct a as [|d a].
  - right. rewrite str_app_nil_l in E. rewrite E. apply startswith_app.
  - left. rewrite str_app_cons in E. injection E as _ ->. by exists a, b.
Qed.

Lemma occurs_empty (c : ascii) (old' : string) :
  ¬ occurs (String c old') EmptyString.
Proof. intros (a & b & E). by destruct a. Qed.

Lemma concat_app_head (sep a r : string) (ps : list string) :
  String.concat sep ((a +:+ r) :: ps) = a +:+ String.concat sep (r :: ps).
Proof. destruct ps; [done|]. cbn. by rewrite str_app_assoc. Qed.

(** Every string is made of pieces without [old], separated by [old]. *)
Lemma split_pieces (c0 : ascii) (old' s : string) :
  ∃ piece pieces,
    Forall (λ q, ¬ occurs (String c0 old') q) (piece :: pieces)
    ∧ s = String.concat (String c0 old') (piece :: pieces).
Proof.
  set (old := String c0 old').
  induction s as [|c s (p & ps & Hfree & ->)].
  - exists EmptyString, []. split; [|done].
    constructor; [apply occurs_empty|done].
  - inversion Hfree as [|? ? Hp Hps]; subst.
    destruct (str_in old (String c p)) eqn:E.
    + apply str_in_occurs in E.
      apply occurs_cons_inv in E as [E|E]; [done|].
      apply startswith_split in E as [r Hr].
      assert (Hfr : ¬ occurs old r).
      { intros Ho. apply Hp. unfold old in Hr. rewrite str_app_cons in Hr.
        injection Hr as _ ->. by apply occurs_suffix. }
      exists EmptyString, (r :: ps). split.
      * constructor; [apply occurs_empty|]. by constructor.
      * change (String c (String.concat old (p :: ps)))
          with (String c EmptyString +:+ String.concat old (p :: ps)).
        rewrite <- concat_app_head.
        change (String c EmptyString +:+ p) with (String c p).
        rewrite Hr. rewrite concat_app_head. done.
    + exists (String c p), ps. split.
      * constructor; [|done]. intros Ho%str_in_occurs. congruence.
      * change (String c (String.concat old (p :: ps)))
          with (String c EmptyString +:+ String.concat old (p :: ps)).
        by rewrite <- concat_app_head.
Qed.

(** C10. For every repo path and every arch, [repo_data.path.replace(
    '$basearch', arch)] replaces every occurrence of [$basearch]: the path
    is a sequence of pieces without [$basearch] separated by [$basearch],
    and the result is the same pieces separated by [arch]. A path without
    [$basearch] is returned as it is. *)
Theorem basearch_replaced_everywhere (repo_data : RepoData.t) (arch : string) :
  (∃ piece pieces,
     Forall (λ q, ¬ occurs "$basearch" q) (piece :: pieces)
     ∧ RepoData.path repo_data = String.concat "$basearch" (piece :: pieces)
     ∧ repo_path_for repo_data arch = String.concat arch (piece :: pieces))
  ∧ (¬ occurs "$basearch" (RepoData.path repo_data) →
     repo_path_for repo_data arch = RepoData.path repo_data).
Proof.
  unfold repo_path_for, str_replace. split.
  - destruct (split_pieces "$" "basearch" (RepoData.path repo_data))
      as (piece & pieces & Hfree & Hpath).
    exists piece, pieces. split_and!; [done..|].
    rewrite Hpath. by apply replace_scan_concat.
  - apply replace_scan_absent.
Qed.

Example basearch_twice :
  repo_path_for
    {| RepoData.name := "AppStream";
       RepoData.path := "$basearch/AppStream/$basearch/os";
       RepoData.arches := []; RepoData.versions := [];
       RepoData.vault := false |} "aarch64"
  = "aarch64/AppStream/aarch64/os".
Proof. reflexivity. Qed.

(** ** The prober *)




Example probe_connection_error :
  fst (is_url_available utils_globals "https://example.org/x"
         (failing_session client_connector_error) true None None None None)
  = Ret false.
Proof. vm_compute. reflexivity. Qed.

Example probe_key_error :
  fst (is_url_available utils_globals "https://example.org/x"
         (failing_session key_error) true None None None None)
  = Raise key_error.
Proof. vm_compute. reflexivity. Qed.

(** ** The choice of the base URL *)

Lemma next_address_none (urls : list (string * string)) (required : list string) :
  next_address urls required = None
  ↔ Forall (λ item, item.1 ∉ required) urls.
Proof.
  induction urls as [|[p a] urls IH]; cbn.
  - split; [constructor|done].
  - case_bool_decide as Hp.
    + split; [done|]. by inversion 1.
    + rewrite IH. split; [by constructor|by inversion 1].
Qed.

Lemma next_address_some (urls : list (string * string)) (required : list string)
    (address : string) :
  next_address urls required = Some address
  ↔ ∃ before protocol after,
      urls = before ++ (protocol, address) :: after
      ∧ protocol ∈ required
      ∧ Forall (λ item, item.1 ∉ required) before.
Proof.
  induction urls as [|[p a] urls IH]; cbn.
  - split; [done|]. intros (before & ? & ? & E & _). by destruct before.
  - case_bool_decide as Hp.
    + split.
      * intros [= ->]. exists [], p, urls. by split_and!.
      * intros (before & q & after & E & Hq & Hbefore).
        destruct before as [|item before]; cbn in E.
        -- by injection E as _ ->.
        -- injection E as <- _. by inversion Hbefore.
    + rewrite IH. split.
      * intros (before & q & after & -> & Hq & Hbefore).
        exists ((p, a) :: before), q, after. split_and!; [done..|].
        by constructor.
      * intros (before & q & after & E & Hq & Hbefore).
        destruct before as [|item before]; cbn in E.
        -- injection E as -> _. done.
        -- injection E as _ ->. exists before, q, after.
           split_and!; [done..|]. by inversion Hbefore.
Qed.

(** C1, as the code has it. For every mirror and service config, the base
    URL is the URL of the first entry of [mirror.urls], in the iteration
    order of that dictionary, whose protocol is a member of
    [required_protocols]; there is none exactly when no protocol of the
    mirror is a member. The order of [required_protocols] plays no part:
    the list is only tested for membership. *)
Theorem base_url_first_in_mirror_order
    (mirror_info : MirrorData.t) (main_config : MainConfig.t) :
  let urls := MirrorData.urls mirror_info in
  let required := MainConfig.required_protocols main_config in
  (∀ address,
     next_address urls required = Some address
     ↔ ∃ before protocol after,
         urls = before ++ (protocol, address) :: after
         ∧ protocol ∈ required
         ∧ Forall (λ item, item.1 ∉ required) before)
  ∧ (next_address urls required = None
     ↔ Forall (λ item, item.1 ∉ required) urls)
  ∧ (∀ reordered, reordered ≡ₚ required →
       next_address urls reordered = next_address urls required).
Proof.
  cbn zeta. split_and!.
  - intros address. apply next_address_some.
  - apply next_address_none.
  - intros reordered Hperm.
    induction (MirrorData.urls mirror_info) as [|[p a] urls IH]; [done|].
    cbn. rewrite IH.
    destruct (decide (p ∈ MainConfig.required_protocols main_config)) as [Hp|Hp].
    + rewrite !bool_decide_eq_true_2; [done..|]. by rewrite Hperm.
    + rewrite !bool_decide_eq_false_2; [done..|]. by rewrite Hperm.
Qed.

(** C1, as the claim has it, fails: a mirror that lists its [http] URL
    before its [https] URL, checked under the preference order
    [https], [http], is probed at the [http] URL, where the preference
    order gives the [https] URL. *)
Lemma base_url_ignores_preference_order :
  next_address (MirrorData.urls two_protocol_mirror)
    (MainConfig.required_protocols prefer_https_config)
  = Some "http://mirror.example.org/almalinux"
  ∧ spec_base_url (MirrorData.urls two_protocol_mirror)
      (MainConfig.required_protocols prefer_https_config)
    = Some "https://mirror.example.org/almalinux"
  ∧ next_address (MirrorData.urls two_protocol_mirror)
      (MainConfig.required_protocols prefer_https_config)
    ≠ spec_base_url (MirrorData.urls two_protocol_mirror)
        (MainConfig.required_protocols prefer_https_config).
Proof. split_and!; [done..|]. vm_compute. discriminate. Qed.

(** The base URL that is chosen is the one that is probed: the mirror
    that lists [http] first is asked for the metadata over [http], under
    a configuration that puts [https] first. *)
Example http_listed_first_is_probed :
  snd (mirror_available utils_globals same_turn two_protocol_mirror ok_session
         prefer_https_config)
  = [EvLog INFO MsgChecking (Positional ["mirror.example.org"]);
     EvRequest GET
       "http://mirror.example.org/almalinux/8/x86_64/os/repodata/repomd.xml";
     EvWait
       ["http://mirror.example.org/almalinux/8/x86_64/os/repodata/repomd.xml"]
       [];
     EvLog INFO MsgMirrorAvailable (Positional ["mirror.example.org"])].
Proof. vm_compute. reflexivity. Qed.

(** ** Mirrors that are not probed *)

(** C7. A private mirror is reported available at once: the outcome is
    [(name, True)] whatever the configuration, the session and the event
    loop are, and the only things done are the two log calls: nothing is
    enumerated, no request is issued, nothing is awaited. *)
Theorem private_mirror_available
    (g : globals) (loop : EventLoop) (mirror_info : MirrorData.t)
    (http_session : ClientSession) (main_config : MainConfig.t)
    (Hprivate : MirrorData.private mirror_info = true) :
  mirror_available g loop mirror_info http_session main_config
  = (Ret (MirrorData.name mirror_info, true),
     [EvLog INFO MsgChecking (Positional [MirrorData.name mirror_info]);
      EvLog INFO MsgPrivate (Positional [MirrorData.name mirror_info])])
  ∧ Forall (λ ev, is_request ev = false)
      (snd (mirror_available g loop mirror_info http_session main_config)).
Proof.
  unfold mirror_available. rewrite Hprivate. split; [done|].
  by repeat constructor.
Qed.

Lemma private_mirror_available_witness :
  mirror_available utils_globals same_turn private_mirror
    (failing_session key_error) example_config
  = (Ret ("intranet.example.org", true),
     [EvLog INFO MsgChecking (Positional ["intranet.example.org"]);
      EvLog INFO MsgPrivate (Positional ["intranet.example.org"])])
  ∧ Forall (λ ev, is_request ev = false)
      (snd (mirror_available utils_globals same_turn private_mirror
              (failing_session key_error) example_config)).
Proof.
  apply (private_mirror_available utils_globals same_turn private_mirror
           (failing_session key_error) example_config).
  reflexivity.
Defined.

(** C8. A mirror that is not private and has no URL under a required
    protocol is reported unavailable: the outcome is [(name, False)], an
    error is logged, and no request is issued. *)
Theorem mirror_without_required_protocol
    (g : globals) (loop : EventLoop) (mirror_info : MirrorData.t)
    (http_session : ClientSession) (main_config : MainConfig.t)
    (Hpublic : MirrorData.private mirror_info = false)
    (Hnone : ∀ protocol address,
        (protocol, address) ∈ MirrorData.urls mirror_info →
        protocol ∉ MainConfig.required_protocols main_config) :
  mirror_available g loop mirror_info http_session main_config
  = (Ret (MirrorData.name mirror_info, false),
     [EvLog INFO MsgChecking (Positional [MirrorData.name mirror_info]);
      EvLog ERROR MsgNoAddress
        (Positional (MirrorData.name mirror_info
                     :: MainConfig.required_protocols main_config))])
  ∧ Forall (λ ev, is_request ev = false)
      (snd (mirror_available g loop mirror_info http_session main_config)).
Proof.
  assert (Hnext : next_address (MirrorData.urls mirror_info)
                    (MainConfig.required_protocols main_config) = None).
  { apply next_address_none, Forall_forall. intros [p a] Hin. by eapply Hnone. }
  unfold mirror_available. rewrite Hpublic, Hnext. split; [done|].
  by repeat constructor.
Qed.

Lemma mirror_without_required_protocol_witness :
  mirror_available utils_globals same_turn rsync_mirror ok_session example_config
  = (Ret ("rsync.example.org", false),
     [EvLog INFO MsgChecking (Positional ["rsync.example.org"]);
      EvLog ERROR MsgNoAddress (Positional ["rsync.example.org"; "https"])])
  ∧ Forall (λ ev, is_request ev = false)
      (snd (mirror_available utils_globals same_turn rsync_mirror ok_session
              example_config)).
Proof.
  apply (mirror_without_required_protocol utils_globals same_turn rsync_mirror
           ok_session example_config).
  - reflexivity.
  - intros protocol address Hin Hreq. cbn in Hin, Hreq.
    apply list_elem_of_singleton in Hin. apply list_elem_of_singleton in Hreq.
    congruence.
Defined.

(** ** The constant [WHITELIST_MIRRORS] *)

(** C9. The check does not read [WHITELIST_MIRRORS]: with any value of
    the constant, and with the empty one, the outcome and everything done
    on the way are the same, for every mirror, session, event loop and
    configuration. *)
Theorem whitelist_mirrors_not_consulted
    (g : globals) (names : list string) (loop : EventLoop)
    (mirror_info : MirrorData.t) (http_session : ClientSession)
    (main_config : MainConfig.t) :
  mirror_available g loop mirror_info http_session main_config
  = mirror_available (with_whitelist_mirrors [] g) loop mirror_info
      http_session main_config
  ∧ mirror_available (with_whitelist_mirrors names g) loop mirror_info
      http_session main_config
    = mirror_available (with_whitelist_mirrors [] g) loop mirror_info
        http_session main_config.
Proof. split; reflexivity. Qed.

(** The mirror named in [WHITELIST_MIRRORS] is probed like any other and
    is reported unavailable when its probe fails. *)
Example whitelisted_mirror_unavailable :
  fst (mirror_available utils_globals same_turn
         {| MirrorData.name := "repo.almalinux.org";
            MirrorData.urls := [("https", "https://repo.almalinux.org/almalinux")];
            MirrorData.cloud_type := EmptyString;
            MirrorData.private := false |}
         (failing_session client_connector_error) example_config)
  = Ret ("repo.almalinux.org", false).
Proof. vm_compute. reflexivity. Qed.

(** ** A mirror with nothing to check *)

Lemma no_repos_no_urls (g : globals) (main_config : MainConfig.t)
    (mirror_info : MirrorData.t) (mirror_url : string) :
  MainConfig.repos main_config = [] →
  urls_for_checking g main_config mirror_info mirror_url = [].
Proof.
  intros Hrepos. unfold urls_for_checking.
  induction (MainConfig.versions main_config) as [|version versions IH];
    [done|].
  cbn. unfold version_body at 2. rewrite Hrepos. cbn.
  by repeat case_match.
Qed.

(** When the enumeration gives no URL, [asyncio.wait] is called with an
    empty list and raises [ValueError]; nothing catches it. *)
Lemma mirror_available_no_candidates
    (g : globals) (loop : EventLoop) (mirror_info : MirrorData.t)
    (http_session : ClientSession) (main_config : MainConfig.t)
    (mirror_url : string) :
  MirrorData.private mirror_info = false →
  next_address (MirrorData.urls mirror_info)
    (MainConfig.required_protocols main_config) = Some mirror_url →
  urls_for_checking g main_config mirror_info mirror_url = [] →
  mirror_available g loop mirror_info http_session main_config
  = (Raise empty_wait_error,
     [EvLog INFO MsgChecking (Positional [MirrorData.name mirror_info])]).
Proof.
  intros Hpublic Hnext Hempty. unfold mirror_available.
  by rewrite Hpublic, Hnext, Hempty.
Qed.

(** C2, at the input where the code fails. A mirror that is not private
    and has an [https] URL is checked under a configuration without
    repos: the enumeration is empty, and the check does not return
    [(name, False)] but ends with the [ValueError] of [asyncio.wait],
    whatever the session and the event loop are. *)
Theorem no_candidates_raises_value_error
    (loop : EventLoop) (http_session : ClientSession) :
  MirrorData.private example_mirror = false
  ∧ next_address (MirrorData.urls example_mirror)
      (MainConfig.required_protocols no_repos_config)
    = Some "https://example.org/almalinux"
  ∧ urls_for_checking utils_globals no_repos_config example_mirror
      "https://example.org/almalinux" = []
  ∧ mirror_available utils_globals loop example_mirror http_session
      no_repos_config
    = (Raise empty_wait_error,
       [EvLog INFO MsgChecking (Positional ["example.org"])])
  ∧ fst (mirror_available utils_globals loop example_mirror http_session
           no_repos_config)
    ≠ Ret ("example.org", false).
Proof.
  assert (H : mirror_available utils_globals loop example_mirror http_session
                no_repos_config
              = (Raise empty_wait_error,
                 [EvLog INFO MsgChecking (Positional ["example.org"])])).
  { apply (mirror_available_no_candidates utils_globals loop example_mirror
             http_session no_repos_config "https://example.org/almalinux");
      [done..|]. by apply no_repos_no_urls. }
  split_and!; [done..|]. by rewrite H.
Qed.

(** ** The enumeration on the example of the specification *)

Lemma whitelist_table_entries (mirror_name : string) :
  WHITELIST_MIRRORS_PER_ARCH_REPO utils_globals !! mirror_name = None
  ∨ WHITELIST_MIRRORS_PER_ARCH_REPO utils_globals !! mirror_name
    = Some azure_entry.
Proof.
  cbn [WHITELIST_MIRRORS_PER_ARCH_REPO utils_globals].
  rewrite !lookup_insert. repeat case_decide; auto.
Qed.

(** C5. One version ["8"], one arch ["x86_64"], the repo [BaseOS] with
    path ["$basearch/os"] and the required protocol [https]: for a mirror
    whose [https] URL is [https://example.org/almalinux], whatever its
    name and its other attributes are, that URL is the base URL and the
    enumeration holds exactly one URL,
    [https://example.org/almalinux/8/x86_64/os/repodata/repomd.xml]. *)
Theorem enumeration_example
    (mirror_name cloud_type : string) (private : bool) :
  let mirror_info :=
    {| MirrorData.name := mirror_name;
       MirrorData.urls := [("https", "https://example.org/almalinux")];
       MirrorData.cloud_type := cloud_type;
       MirrorData.private := private |} in
  next_address (MirrorData.urls mirror_info)
    (MainConfig.required_protocols example_config)
  = Some "https://example.org/almalinux"
  ∧ urls_for_checking utils_globals example_config mirror_info
      "https://example.org/almalinux"
    = [("https://example.org/almalinux/8/x86_64/os/repodata/repomd.xml",
        {| info_version := "8"; info_repo_path := "x86_64/os" |})].
Proof.
  cbn zeta. split; [done|].
  unfold urls_for_checking, example_config.
  cbn [foldl MainConfig.versions].
  unfold version_body.
  cbn [MirrorData.cloud_type MainConfig.duplicated_versions MainConfig.repos
       foldl].
  replace (str_in "beta" "8") with false by done.
  rewrite andb_false_r.
  replace (dict_has (∅ : gmap string string) "8") with false by done.
  unfold repo_body, arch_body, repo_not_whitelisted, arch_not_whitelisted.
  cbn [MirrorData.name RepoData.name RepoData.vault RepoData.arches
       RepoData.versions MainConfig.arches MainConfig.versions_arches baseos
       _get_arches_for_version foldl].
  destruct (whitelist_table_entries mirror_name) as [-> | ->];
    vm_compute; reflexivity.
Qed.

(** ** The per-mirror override *)

Lemma dict_set_Forall {V : Type} (P : string * V → Prop)
    (d : list (string * V)) (k : string) (v : V) :
  Forall P d → P (k, v) → Forall P (dict_set d k v).
Proof.
  intros Hd Hkv. induction Hd as [|[k' v'] d Hhead Htail IH]; cbn.
  - by repeat constructor.
  - destruct (String.eqb k' k) eqn:E.
    + apply String.eqb_eq in E as ->. by constructor.
    + by constructor.
Qed.

Section Override.

Variables (g : globals) (main_config : MainConfig.t)
          (mirror_info : MirrorData.t) (mirror_url : string)
          (entry : whitelist_entry).
Hypothesis Hentry :
  WHITELIST_MIRRORS_PER_ARCH_REPO g !! MirrorData.name mirror_info = Some entry.

Let permitted_here := permitted main_config mirror_url entry.

Lemma arch_loop_permitted (version : string) (repo_data : RepoData.t)
    (arches : list string) (acc : list (string * url_info)) :
  version ∈ MainConfig.versions main_config →
  repo_data ∈ MainConfig.repos main_config →
  RepoData.name repo_data ∈ wl_repos entry →
  arches ⊆ _get_arches_for_version (RepoData.arches repo_data)
             (MainConfig.arches main_config) →
  Forall permitted_here acc →
  Forall permitted_here
    (foldl (arch_body g main_config mirror_info mirror_url version repo_data)
       acc arches).
Proof.
  intros Hv Hr Hname. revert acc.
  induction arches as [|arch arches IH]; intros acc Hsub Hacc; [done|].
  cbn. apply IH; [set_solver|].
  unfold arch_body, arch_not_whitelisted. rewrite Hentry.
  case_bool_decide as Harch; cbn; [|done].
  case_match; [done|].
  apply dict_set_Forall; [done|].
  exists version, repo_data, arch. split_and!; [done..|set_solver|done|done].
Qed.

Lemma repo_loop_permitted (version : string) (repos : list RepoData.t)
    (acc : list (string * url_info)) :
  version ∈ MainConfig.versions main_config →
  repos ⊆ MainConfig.repos main_config →
  Forall permitted_here acc →
  Forall permitted_here
    (foldl (repo_body g main_config mirror_info mirror_url version) acc repos).
Proof.
  intros Hv. revert acc.
  induction repos as [|repo_data repos IH]; intros acc Hsub Hacc; [done|].
  cbn. apply IH; [set_solver|].
  unfold repo_body, repo_not_whitelisted. rewrite Hentry.
  case_bool_decide as Hname; cbn; [|done].
  repeat (case_match; [done|]).
  apply arch_loop_permitted; [done|set_solver|done..].
Qed.

Lemma version_loop_permitted (versions : list string)
    (acc : list (string * url_info)) :
  versions ⊆ MainConfig.versions main_config →
  Forall permitted_here acc →
  Forall permitted_here
    (foldl (version_body g main_config mirror_info mirror_url) acc versions).
Proof.
  revert acc.
  induction versions as [|version versions IH]; intros acc Hsub Hacc; [done|].
  cbn. apply IH; [set_solver|].
  unfold version_body.
  repeat (case_match; [done|]).
  apply repo_loop_permitted; [set_solver|done..].
Qed.

(** The repos outside the ['repos'] list of the override add nothing. *)
Lemma repo_loop_restricted (version : string) (repos : list RepoData.t)
    (acc : list (string * url_info)) :
  foldl (repo_body g main_config mirror_info mirror_url version) acc repos
  = foldl (repo_body g (restrict_repos (wl_repos entry) main_config)
             mirror_info mirror_url version)
      acc (filter (λ repo_data, RepoData.name repo_data ∈ wl_repos entry) repos).
Proof.
  revert acc. induction repos as [|repo_data repos IH]; intros acc; [done|].
  destruct (decide (RepoData.name repo_data ∈ wl_repos entry)) as [Hin|Hout].
  - rewrite filter_cons_True by done. cbn. by rewrite IH.
  - rewrite filter_cons_False by done. cbn. rewrite <- IH. f_equal.
    unfold repo_body, repo_not_whitelisted. rewrite Hentry.
    by rewrite bool_decide_eq_false_2.
Qed.

Lemma version_loop_restricted (versions : list string)
    (acc : list (string * url_info)) :
  foldl (version_body g main_config mirror_info mirror_url) acc versions
  = foldl (version_body g (restrict_repos (wl_repos entry) main_config)
             mirror_info mirror_url)
      acc versions.
Proof.
  revert acc. induction versions as [|version versions IH]; intros acc; [done|].
  cbn. rewrite IH. f_equal. unfold version_body.
  cbn [restrict_repos MainConfig.duplicated_versions MainConfig.repos].
  destruct (nonempty _ && str_in _ _); [done|].
  destruct (dict_has _ _); [done|].
  apply repo_loop_restricted.
Qed.

End Override.

(** C6. For a mirror that has an entry in [WHITELIST_MIRRORS_PER_ARCH_REPO]
    and for every configuration: every URL of the enumeration is made for
    a repo whose name is in the ['repos'] list of the entry and for an
    arch that is in the ['arches'] list of the entry; and the repos of
    the configuration outside the ['repos'] list change nothing, the
    enumeration is the one of the configuration without them. *)
Theorem override_limits_candidates
    (g : globals) (main_config : MainConfig.t) (mirror_info : MirrorData.t)
    (mirror_url : string) (entry : whitelist_entry)
    (Hentry : WHITELIST_MIRRORS_PER_ARCH_REPO g !! MirrorData.name mirror_info
              = Some entry) :
  (∀ candidate,
     candidate ∈ urls_for_checking g main_config mirror_info mirror_url →
     ∃ version repo_data arch,
       version ∈ MainConfig.versions main_config
       ∧ repo_data ∈ MainConfig.repos main_config
       ∧ RepoData.name repo_data ∈ wl_repos entry
       ∧ arch ∈ _get_arches_for_version (RepoData.arches repo_data)
                  (MainConfig.arches main_config)
       ∧ arch ∈ wl_arches entry
       ∧ candidate
         = (url_for_check mirror_url version (repo_path_for repo_data arch),
            {| info_version := version;
               info_repo_path := repo_path_for repo_data arch |}))
  ∧ urls_for_checking g main_config mirror_info mirror_url
    = urls_for_checking g (restrict_repos (wl_repos entry) main_config)
        mirror_info mirror_url.
Proof.
  split.
  - intros candidate Hin.
    assert (H : Forall (permitted main_config mirror_url entry)
                  (urls_for_checking g main_config mirror_info mirror_url)).
    { by apply version_loop_permitted. }
    rewrite Forall_forall in H. by apply H.
  - by apply version_loop_restricted.
Qed.

Lemma override_limits_candidates_witness :
  WHITELIST_MIRRORS_PER_ARCH_REPO utils_globals
    !! MirrorData.name azure_mirror = Some azure_entry
  ∧ (∀ candidate,
       candidate ∈ urls_for_checking utils_globals many_arches_config
                     azure_mirror
                     "https://eastus.azure.repo.almalinux.org/almalinux" →
       ∃ version repo_data arch,
         version ∈ MainConfig.versions many_arches_config
         ∧ repo_data ∈ MainConfig.repos many_arches_config
         ∧ RepoData.name repo_data ∈ wl_repos azure_entry
         ∧ arch ∈ _get_arches_for_version (RepoData.arches repo_data)
                    (MainConfig.arches many_arches_config)
         ∧ arch ∈ wl_arches azure_entry
         ∧ candidate
           = (url_for_check "https://eastus.azure.repo.almalinux.org/almalinux"
                version (repo_path_for repo_data arch),
              {| info_version := version;
                 info_repo_path := repo_path_for repo_data arch |}))
  ∧ urls_for_checking utils_globals many_arches_config azure_mirror
      "https://eastus.azure.repo.almalinux.org/almalinux"
    = urls_for_checking utils_globals
        (restrict_repos (wl_repos azure_entry) many_arches_config)
        azure_mirror "https://eastus.azure.repo.almalinux.org/almalinux".
Proof.
  split; [reflexivity|].
  apply (override_limits_candidates utils_globals many_arches_config
           azure_mirror "https://eastus.azure.repo.almalinux.org/almalinux"
           azure_entry).
  reflexivity.
Defined.

Example override_enumeration :
  map fst (urls_for_checking utils_globals many_arches_config azure_mirror
             "https://eastus.azure.repo.almalinux.org/almalinux")
  = ["https://eastus.azure.repo.almalinux.org/almalinux/8/x86_64/os/repodata/repomd.xml";
     "https://eastus.azure.repo.almalinux.org/almalinux/8/aarch64/os/repodata/repomd.xml";
     "https://eastus.azure.repo.almalinux.org/almalinux/9/x86_64/os/repodata/repomd.xml";
     "https://eastus.azure.repo.almalinux.org/almalinux/9/aarch64/os/repodata/repomd.xml"].
Proof. vm_compute. reflexivity. Qed.

(** ** The aggregation of the probes *)

Lemma first_round_attained (t : Task) (ts : list Task) :
  ∃ u, u ∈ t :: ts ∧ task_round u = first_round t ts.
Proof.
  unfold first_round. induction ts as [|v ts (u & Hu & Hr)]; cbn.
  - exists t. split; [apply list_elem_of_here|done].
  - destruct (Nat.min_spec (task_round v)
                (foldr (λ u r, Nat.min (task_round u) r) (task_round t) ts))
      as [[_ ->]|[_ ->]].
    + exists v. split; [|done]. apply list_elem_of_further, list_elem_of_here.
    + exists u. split; [|done].
      apply elem_of_cons in Hu as [->|Hu];
        [apply list_elem_of_here|by do 2 apply list_elem_of_further].
Qed.

(** With a task to wait for, [asyncio.wait] returns: some task is done,
    and the done and the pending tasks together are the tasks given. *)
Lemma asyncio_wait_returns (created_tasks : list Task) :
  created_tasks ≠ [] →
  ∃ done_tasks pending_tasks,
    asyncio_wait created_tasks = Ret (done_tasks, pending_tasks)
    ∧ done_tasks ≠ []
    ∧ done_tasks ++ pending_tasks ≡ₚ created_tasks
    ∧ length pending_tasks < length created_tasks.
Proof.
  destruct created_tasks as [|t ts]; [done|]. intros _.
  destruct (first_round_attained t ts) as (u & Hu & Hr).
  unfold asyncio_wait. set (r := first_round t ts) in *.
  eexists _, _. split_and!; [done|..].
  - intros Hnil.
    assert (Hin : u ∈ filter (λ v, task_round v = r) (t :: ts)).
    { by apply list_elem_of_filter. }
    rewrite Hnil in Hin. by apply not_elem_of_nil in Hin.
  - apply filter_app_complement.
  - apply (length_filter_lt _ _ u); [done|]. intros Hne. by apply Hne.
Qed.

Lemma check_tasks_fuel_unfold (fuel : nat) (created_tasks : list Task) :
  check_tasks_fuel fuel created_tasks
  = match asyncio_wait created_tasks with
    | Raise err => (Raise err, [])
    | Ret (done_tasks, pending_tasks) =>
        let seen := wave_events done_tasks pending_tasks in
        match scan_done done_tasks with
        | FoundFalse =>
            (Ret false,
             seen ++ map (λ t, EvCancel (task_url t)) pending_tasks)
        | Raised err => (Raise err, seen)
        | AllTrue =>
            match pending_tasks with
            | [] => (Ret true, seen)
            | _ :: _ =>
                match fuel with
                | O => (Raise recursion_error, seen)
                | S fuel' =>
                    let '(r, tr) := check_tasks_fuel fuel' pending_tasks in
                    (r, seen ++ tr)
                end
            end
        end
    end.
Proof. by destruct fuel. Qed.

(** The bound on the depth of the recursion is never reached: from the
    number of tasks on, more fuel changes nothing. *)
Lemma check_tasks_fuel_enough (fuel1 fuel2 : nat) (created_tasks : list Task) :
  length created_tasks ≤ S fuel1 →
  length created_tasks ≤ S fuel2 →
  check_tasks_fuel fuel1 created_tasks = check_tasks_fuel fuel2 created_tasks.
Proof.
  revert fuel2 created_tasks.
  induction fuel1 as [|fuel1 IH]; intros fuel2 created_tasks H1 H2;
    rewrite (check_tasks_fuel_unfold _ created_tasks);
    rewrite (check_tasks_fuel_unfold fuel2 created_tasks);
    (destruct created_tasks as [|t ts]; [done|]);
    destruct (asyncio_wait_returns (t :: ts))
      as (done_tasks & pending_tasks & -> & _ & _ & Hlt); try done;
    cbn zeta; destruct (scan_done done_tasks); try done;
    destruct pending_tasks as [|p ps]; try done; cbn in Hlt, H1, H2.
  - lia.
  - destruct fuel2 as [|fuel2]; [lia|].
    rewrite (IH fuel2); [done|cbn; lia..].
Qed.

(** One call of [_check_tasks], with the recursive call as a call of
    [_check_tasks]. *)
Lemma check_tasks_unfold (created_tasks done_tasks pending_tasks : list Task) :
  asyncio_wait created_tasks = Ret (done_tasks, pending_tasks) →
  length pending_tasks < length created_tasks →
  _check_tasks created_tasks
  = let seen := wave_events done_tasks pending_tasks in
    match scan_done done_tasks with
    | FoundFalse =>
        (Ret false, seen ++ map (λ t, EvCancel (task_url t)) pending_tasks)
    | Raised err => (Raise err, seen)
    | AllTrue =>
        match pending_tasks with
        | [] => (Ret true, seen)
        | _ :: _ =>
            (fst (_check_tasks pending_tasks),
             seen ++ snd (_check_tasks pending_tasks))
        end
    end.
Proof.
  intros Hwait Hlt. unfold _check_tasks at 1.
  rewrite check_tasks_fuel_unfold, Hwait. cbn zeta.
  destruct (scan_done done_tasks); try done.
  destruct pending_tasks as [|p ps]; [done|].
  destruct (length created_tasks) as [|fuel] eqn:E; [cbn in Hlt; lia|].
  unfold _check_tasks.
  rewrite (check_tasks_fuel_enough fuel (length (p :: ps)) (p :: ps)); [|lia..].
  by destruct (check_tasks_fuel _ _).
Qed.

Lemma scan_done_all_true (done_tasks : list Task) :
  scan_done done_tasks = AllTrue ↔ Forall returned_true done_tasks.
Proof.
  unfold returned_true. induction done_tasks as [|t ts IH]; cbn.
  - split; [constructor|done].
  - destruct (task_result t) as [[]|err] eqn:E.
    + rewrite IH. split; [by constructor|by inversion 1].
    + split; [done|]. inversion 1; congruence.
    + split; [done|]. inversion 1; congruence.
Qed.


Lemma awaited_app (tr1 tr2 : list event) :
  awaited (tr1 ++ tr2) = awaited tr1 ++ awaited tr2.
Proof. unfold awaited. by rewrite flat_map_app. Qed.

Lemma cancelled_app (tr1 tr2 : list event) :
  cancelled (tr1 ++ tr2) = cancelled tr1 ++ cancelled tr2.
Proof. unfold cancelled. by rewrite flat_map_app. Qed.

Lemma logs_not_awaited (ts : list Task) :
  awaited (flat_map (λ t, List.filter is_log (task_events t)) ts) = []
  ∧ cancelled (flat_map (λ t, List.filter is_log (task_events t)) ts) = [].
Proof.
  induction ts as [|t ts [IHa IHc]]; [done|]. cbn.
  rewrite awaited_app, cancelled_app, IHa, IHc, !app_nil_r.
  induction (task_events t) as [|ev evs [IH1 IH2]]; [done|].
  cbn. destruct ev; cbn; done.
Qed.

Lemma awaited_wave (done_tasks pending_tasks : list Task) :
  awaited (wave_events done_tasks pending_tasks) = map task_url done_tasks.
Proof.
  unfold wave_events. rewrite awaited_app.
  rewrite (proj1 (logs_not_awaited done_tasks)). cbn. by rewrite app_nil_r.
Qed.

Lemma cancelled_wave (done_tasks pending_tasks : list Task) :
  cancelled (wave_events done_tasks pending_tasks) = [].
Proof.
  unfold wave_events. rewrite cancelled_app.
  by rewrite (proj2 (logs_not_awaited done_tasks)).
Qed.

Lemma cancelled_cancels (ts : list Task) :
  cancelled (map (λ t, EvCancel (task_url t)) ts) = map task_url ts
  ∧ awaited (map (λ t, EvCancel (task_url t)) ts) = [].
Proof.
  unfold cancelled, awaited.
  induction ts as [|t ts [IH1 IH2]]; [done|]. cbn. by rewrite IH1, IH2.
Qed.

Lemma scan_done_found_false_inv (done_tasks : list Task) :
  scan_done done_tasks = FoundFalse →
  ∃ t, t ∈ done_tasks ∧ task_result t = Ret false.
Proof.
  induction done_tasks as [|t ts IH]; cbn; [done|].
  destruct (task_result t) as [[]|err] eqn:E; [|by eexists; split; [left|]|done].
  intros (u & Hu & Hr)%IH. exists u. split; [by right|done].
Qed.

Lemma scan_done_raised_inv (done_tasks : list Task) (err : exn) :
  scan_done done_tasks = Raised err →
  ∃ t, t ∈ done_tasks ∧ task_result t = Raise err.
Proof.
  induction done_tasks as [|t ts IH]; cbn; [done|].
  destruct (task_result t) as [[]|err'] eqn:E; [|done|].
  - intros (u & Hu & Hr)%IH. exists u. split; [by right|done].
  - intros [= ->]. exists t. split; [by left|done].
Qed.

(** What an outcome of [_check_tasks] tells about the probes and about
    what was done: after [True], every probe has returned [True], every
    probe was found done by a wait and none was cancelled; after [False],
    some probe has returned [False] and every probe was either found done
    or cancelled; an exception is the exception of some probe. *)
Lemma check_tasks_outcome (created_tasks : list Task) :
  created_tasks ≠ [] →
  match fst (_check_tasks created_tasks) with
  | Ret true =>
      Forall returned_true created_tasks
      ∧ awaited (snd (_check_tasks created_tasks)) ≡ₚ map task_url created_tasks
      ∧ cancelled (snd (_check_tasks created_tasks)) = []
  | Ret false =>
      (∃ t, t ∈ created_tasks ∧ task_result t = Ret false)
      ∧ awaited (snd (_check_tasks created_tasks))
        ++ cancelled (snd (_check_tasks created_tasks))
        ≡ₚ map task_url created_tasks
  | Raise err => ∃ t, t ∈ created_tasks ∧ task_result t = Raise err
  end.
Proof.
  remember (length created_tasks) as n eqn:Hn. revert created_tasks Hn.
  induction n as [n IH] using lt_wf_ind. intros created_tasks -> Hne.
  destruct (asyncio_wait_returns created_tasks Hne)
    as (done_tasks & pending_tasks & Hwait & _ & Hperm & Hlt).
  rewrite (check_tasks_unfold _ _ _ Hwait Hlt). cbn zeta.
  assert (Hsub : ∀ t, t ∈ done_tasks ++ pending_tasks → t ∈ created_tasks).
  { intros t. by rewrite Hperm. }
  destruct (scan_done done_tasks) as [| |err] eqn:Hscan.
  - apply scan_done_all_true in Hscan.
    destruct pending_tasks as [|p ps].
    + cbn [fst snd]. rewrite app_nil_r in Hperm.
      rewrite awaited_wave, cancelled_wave. split_and!; [|by rewrite Hperm|done].
      by rewrite <- Hperm.
    + specialize (IH _ Hlt (p :: ps) eq_refl). cbn [fst snd].
      destruct (fst (_check_tasks (p :: ps))) as [[]|err]; [| |].
      * destruct IH as (Hall & Haw & Hc); [done|].
        rewrite awaited_app, cancelled_app, awaited_wave, cancelled_wave.
        split_and!.
        -- rewrite <- Hperm. by apply Forall_app.
        -- by rewrite Haw, <- Hperm, map_app.
        -- done.
      * destruct IH as ((t & Hin & Hfalse) & Haw); [done|]. split.
        -- exists t. split; [|done]. apply Hsub, elem_of_app. by right.
        -- rewrite awaited_app, cancelled_app, awaited_wave, cancelled_wave.
           cbn [app]. by rewrite <- app_assoc, Haw, <- Hperm, map_app.
      * destruct IH as (t & Hin & Hraise); [done|].
        exists t. split; [|done]. apply Hsub, elem_of_app. by right.
  - apply scan_done_found_false_inv in Hscan as (t & Hin & Hfalse).
    cbn [fst snd]. split.
    + exists t. split; [|done]. apply Hsub, elem_of_app. by left.
    + rewrite awaited_app, cancelled_app, awaited_wave, cancelled_wave.
      rewrite (proj1 (cancelled_cancels pending_tasks)).
      rewrite (proj2 (cancelled_cancels pending_tasks)).
      by rewrite app_nil_r, <- Hperm, map_app.
  - apply scan_done_raised_inv in Hscan as (t & Hin & Hraise).
    cbn [fst snd]. exists t. split; [|done]. apply Hsub, elem_of_app. by left.
Qed.



(** Five probes that complete one after the other, the third of which
    fails: after the third wait the fourth and the fifth probe are
    cancelled and [False] is returned; they are not waited for. *)
Example five_probes_third_fails :
  _check_tasks five_probes
  = (Ret false,
     [EvWait ["u1"] ["u2"; "u3"; "u4"; "u5"];
      EvWait ["u2"] ["u3"; "u4"; "u5"];
      EvWait ["u3"] ["u4"; "u5"];
      EvCancel "u4"; EvCancel "u5"]).
Proof. vm_compute. reflexivity. Qed.

(** Three probes that all succeed: [True] comes after the third wait. *)
Example three_probes_succeed :
  _check_tasks [probe "u1" 2 true; probe "u2" 1 true; probe "u3" 3 true]
  = (Ret true,
     [EvWait ["u2"] ["u1"; "u3"]; EvWait ["u1"] ["u3"]; EvWait ["u3"] []]).
Proof. vm_compute. reflexivity. Qed.

(** [mirror_available] hands the outcome of [_check_tasks] on: [False]
    becomes [(name, False)], [True] becomes [(name, True)], an exception
    stays the exception. *)
Lemma mirror_available_verdict
    (g : globals) (loop : EventLoop) (mirror_info : MirrorData.t)
    (http_session : ClientSession) (main_config : MainConfig.t)
    (mirror_url : string) :
  MirrorData.private mirror_info = false →
  next_address (MirrorData.urls mirror_info)
    (MainConfig.required_protocols main_config) = Some mirror_url →
  let tasks :=
    map (λ '(check_url, info),
           ensure_future loop check_url
             (is_url_available g check_url http_session true
                (Some MsgUrlAvailable) None (Some MsgUrlNotAvailable)
                (Some [("name", MirrorData.name mirror_info);
                       ("version", info_version info);
                       ("repo", info_repo_path info)])))
        (urls_for_checking g main_config mirror_info mirror_url) in
  fst (mirror_available g loop mirror_info http_session main_config)
  = match fst (_check_tasks tasks) with
    | Ret verdict => Ret (MirrorData.name mirror_info, verdict)
    | Raise err => Raise err
    end.
Proof.
  intros Hpublic Hnext. cbn zeta. unfold mirror_available.
  rewrite Hpublic, Hnext.
  destruct (_check_tasks _) as [[[]|err] tr]; done.
Qed.

(** * Further properties of the code *)

(** The loops are reasoned about without looking into the URLs. *)
#[local] Opaque UrlParse.urljoin str_replace.

(** ** Dictionaries *)

Lemma keys_dict_set {V : Type} (d : list (string * V)) (k : string) (v : V) :
  keys (dict_set d k v) = if bool_decide (k ∈ keys d) then keys d else keys d ++ [k].
Proof.
  unfold keys. induction d as [|[k' v'] d IH]; [done|]. cbn.
  destruct (String.eqb k' k) eqn:E.
  - apply String.eqb_eq in E as ->. cbn.
    rewrite bool_decide_eq_true_2; [done|]. apply list_elem_of_here.
  - apply String.eqb_neq in E. cbn. rewrite IH.
    destruct (decide (k ∈ map fst d)) as [Hin|Hout].
    + rewrite !bool_decide_eq_true_2; [done| |done]. by apply list_elem_of_further.
    + rewrite !bool_decide_eq_false_2; [done| |done].
      intros [->|Hin]%elem_of_cons; done.
Qed.

Lemma elem_of_keys_dict_set {V : Type} (d : list (string * V)) (k k' : string)
    (v : V) :
  k' ∈ keys (dict_set d k v) ↔ k' ∈ keys d ∨ k' = k.
Proof.
  rewrite keys_dict_set. case_bool_decide as Hk.
  - split; [by left|]. by intros [?| ->].
  - rewrite elem_of_app, list_elem_of_singleton. done.
Qed.

Lemma NoDup_keys_dict_set {V : Type} (d : list (string * V)) (k : string) (v : V) :
  NoDup (keys d) → NoDup (keys (dict_set d k v)).
Proof.
  intros Hd. rewrite keys_dict_set. case_bool_decide as Hk; [done|].
  apply NoDup_app. split_and!; [done| |apply NoDup_singleton].
  intros x Hx ->%list_elem_of_singleton. done.
Qed.

Lemma length_dict_set {V : Type} (d : list (string * V)) (k : string) (v : V) :
  length (dict_set d k v) ≤ S (length d).
Proof.
  induction d as [|[k' v'] d IH]; cbn; [lia|].
  destruct (String.eqb k' k); cbn; lia.
Qed.

(** ** The tests of the loops *)

Lemma nonempty_true (s : string) : nonempty s = true ↔ s ≠ EmptyString.
Proof. by destruct s. Qed.

Lemma dict_has_false {V : Type} (d : gmap string V) (k : string) :
  dict_has d k = false ↔ d !! k = None.
Proof.
  unfold dict_has. rewrite bool_decide_eq_false, <- eq_None_not_Some. done.
Qed.

Lemma permitted_arch_spec (version arch : string)
    (versions_arches : gmap string (list string)) :
  _is_permitted_arch_for_this_version_and_repo version arch versions_arches
  = true
  ↔ ∀ allowed, versions_arches !! version = Some allowed → arch ∈ allowed.
Proof.
  unfold _is_permitted_arch_for_this_version_and_repo, dict_has.
  destruct (versions_arches !! version) as [allowed|] eqn:E; cbn.
  - case_bool_decide as Hin.
    + split; [|done]. by intros _ ? [= <-].
    + split; [done|]. intros H. destruct Hin. by apply H.
  - split; [|done]. by intros _ ? [=].
Qed.

Section Loop_bodies.

Variables (g : globals) (main_config : MainConfig.t)
          (mirror_info : MirrorData.t) (mirror_url : string).

(** Settles what a test says about the entry of the override table, from
    the outcome [E] of the lookup. *)
Ltac entry_is E :=
  let entry := fresh in
  let Hentry := fresh in
  intros entry Hentry; rewrite ?E in Hentry; by simplify_eq.

(** The body of the loop over the versions, by cases. *)
Lemma version_body_checked (acc : list (string * url_info)) (version : string) :
  version_checked main_config mirror_info version →
  version_body g main_config mirror_info mirror_url acc version
  = foldl (repo_body g main_config mirror_info mirror_url version) acc
      (MainConfig.repos main_config).
Proof.
  intros [Hbeta Hdup]. unfold version_body.
  destruct (nonempty _ && str_in _ _) eqn:E.
  - apply andb_true_iff in E as [Hc%nonempty_true Hb%str_in_occurs].
    by destruct (Hbeta Hc).
  - by rewrite (proj2 (dict_has_false _ _) Hdup).
Qed.

Lemma version_body_skipped (acc : list (string * url_info)) (version : string) :
  ¬ version_checked main_config mirror_info version →
  version_body g main_config mirror_info mirror_url acc version = acc.
Proof.
  intros Hnot. unfold version_body.
  destruct (nonempty _ && str_in _ _) eqn:E; [done|].
  destruct (dict_has _ _) eqn:Ed; [done|].
  destruct Hnot. split.
  - intros Hc%nonempty_true Hb%str_in_occurs. by rewrite Hc, Hb in E.
  - by apply dict_has_false.
Qed.

Lemma version_checked_dec (version : string) :
  version_checked main_config mirror_info version
  ∨ ¬ version_checked main_config mirror_info version.
Proof.
  unfold version_checked.
  destruct (nonempty (MirrorData.cloud_type mirror_info) && str_in "beta" version)
    eqn:E.
  - right. intros [Hbeta _].
    apply andb_true_iff in E as [Hc%nonempty_true Hb%str_in_occurs].
    by destruct (Hbeta Hc).
  - destruct (MainConfig.duplicated_versions main_config !! version) eqn:Ed.
    + right. by intros [_ [=]].
    + left. split; [|done].
      intros Hc%nonempty_true Hb%str_in_occurs. by rewrite Hc, Hb in E.
Qed.

(** The body of the loop over the repos, by cases. *)
Lemma repo_body_checked (acc : list (string * url_info)) (version : string)
    (repo_data : RepoData.t) :
  repo_checked g mirror_info version repo_data →
  repo_body g main_config mirror_info mirror_url version acc repo_data
  = foldl (arch_body g main_config mirror_info mirror_url version repo_data)
      acc
      (_get_arches_for_version (RepoData.arches repo_data)
         (MainConfig.arches main_config)).
Proof.
  intros (Hwl & Hvault & Hversions). unfold repo_body, repo_not_whitelisted.
  destruct (WHITELIST_MIRRORS_PER_ARCH_REPO g !! MirrorData.name mirror_info)
    as [entry|] eqn:E.
  - rewrite bool_decide_eq_true_2 by eauto. cbn. rewrite Hvault.
    destruct Hversions as [-> | Hin]; [done|].
    rewrite (bool_decide_eq_true_2 (version ∈ _)) by done.
    by rewrite andb_false_r.
  - rewrite Hvault. destruct Hversions as [-> | Hin]; [done|].
    rewrite (bool_decide_eq_true_2 (version ∈ _)) by done.
    by rewrite andb_false_r.
Qed.

Lemma repo_body_skipped (acc : list (string * url_info)) (version : string)
    (repo_data : RepoData.t) :
  ¬ repo_checked g mirror_info version repo_data →
  repo_body g main_config mirror_info mirror_url version acc repo_data = acc.
Proof.
  intros Hnot. unfold repo_body, repo_not_whitelisted.
  destruct (WHITELIST_MIRRORS_PER_ARCH_REPO g !! MirrorData.name mirror_info)
    as [entry|] eqn:E.
  - case_bool_decide as Hname; [cbn|done].
    destruct (RepoData.vault repo_data) eqn:Hvault; [done|].
    case_bool_decide as Hne; [|cbn].
    + case_bool_decide as Hin; [cbn|done].
      destruct Hnot. split_and!; [entry_is E|done|by right].
    + destruct Hnot. split_and!; [entry_is E|done|].
      left. by destruct (RepoData.versions repo_data); [|destruct Hne].
  - destruct (RepoData.vault repo_data) eqn:Hvault; [done|].
    case_bool_decide as Hne; [|cbn].
    + case_bool_decide as Hin; [cbn|done].
      destruct Hnot. split_and!; [entry_is E|done|by right].
    + destruct Hnot. split_and!; [entry_is E|done|].
      left. by destruct (RepoData.versions repo_data); [|destruct Hne].
Qed.

Lemma repo_checked_dec (version : string) (repo_data : RepoData.t) :
  repo_checked g mirror_info version repo_data
  ∨ ¬ repo_checked g mirror_info version repo_data.
Proof.
  unfold repo_checked.
  destruct (RepoData.vault repo_data); [right; by intros (_ & [=] & _)|].
  destruct (decide (RepoData.versions repo_data = []
                    ∨ version ∈ RepoData.versions repo_data)) as [Hv|Hv];
    [|right; by intros (_ & _ & ?)].
  destruct (WHITELIST_MIRRORS_PER_ARCH_REPO g !! MirrorData.name mirror_info)
    as [entry|] eqn:E.
  - destruct (decide (RepoData.name repo_data ∈ wl_repos entry)) as [Hn|Hn].
    + left. split_and!; [entry_is E|done..].
    + right. intros (H & _). by apply Hn, H.
  - left. split_and!; [entry_is E|done..].
Qed.

(** The body of the loop over the arches, by cases. *)
Lemma arch_body_checked (acc : list (string * url_info)) (version : string)
    (repo_data : RepoData.t) (arch : string) :
  arch_checked g main_config mirror_info version arch →
  arch_body g main_config mirror_info mirror_url version repo_data acc arch
  = dict_set acc (candidate mirror_url version repo_data arch).1
      (candidate mirror_url version repo_data arch).2.
Proof.
  intros [Hwl Hperm]. unfold arch_body, arch_not_whitelisted.
  apply permitted_arch_spec in Hperm. rewrite Hperm.
  destruct (WHITELIST_MIRRORS_PER_ARCH_REPO g !! MirrorData.name mirror_info)
    as [entry|] eqn:E; [|done].
  by rewrite bool_decide_eq_true_2 by eauto.
Qed.

Lemma arch_body_skipped (acc : list (string * url_info)) (version : string)
    (repo_data : RepoData.t) (arch : string) :
  ¬ arch_checked g main_config mirror_info version arch →
  arch_body g main_config mirror_info mirror_url version repo_data acc arch
  = acc.
Proof.
  intros Hnot. unfold arch_body, arch_not_whitelisted.
  destruct (_is_permitted_arch_for_this_version_and_repo _ _ _) eqn:Hp.
  - pose proof (proj1 (permitted_arch_spec _ _ _) Hp) as Hall.
    destruct (WHITELIST_MIRRORS_PER_ARCH_REPO g !! MirrorData.name mirror_info)
      as [entry|] eqn:E.
    + case_bool_decide as Hin; [|done].
      destruct Hnot. split; [entry_is E|done].
    + destruct Hnot. split; [entry_is E|done].
  - by destruct (match WHITELIST_MIRRORS_PER_ARCH_REPO g
                         !! MirrorData.name mirror_info with
                 | Some entry => negb (bool_decide (arch ∈ wl_arches entry))
                 | None => false
                 end).
Qed.

Lemma arch_checked_dec (version arch : string) :
  arch_checked g main_config mirror_info version arch
  ∨ ¬ arch_checked g main_config mirror_info version arch.
Proof.
  destruct (_is_permitted_arch_for_this_version_and_repo version arch
              (MainConfig.versions_arches main_config)) eqn:Hp.
  - pose proof (proj1 (permitted_arch_spec _ _ _) Hp) as Hall.
    destruct (WHITELIST_MIRRORS_PER_ARCH_REPO g !! MirrorData.name mirror_info)
      as [entry|] eqn:E.
    + destruct (decide (arch ∈ wl_arches entry)) as [Hn|Hn].
      * left. split; [entry_is E|done].
      * right. intros (H & _). by apply Hn, H.
    + left. split; [entry_is E|done].
  - right. intros [_ H%permitted_arch_spec]. congruence.
Qed.

End Loop_bodies.

(** ** What the enumeration holds *)

Section Enumeration_facts.

Variables (g : globals) (main_config : MainConfig.t)
          (mirror_info : MirrorData.t) (mirror_url : string).

(** The entry was written by the innermost loop body for an eligible
    version, repo and arch. *)
Let written (c : string * url_info) : Prop :=
  ∃ version repo_data arch,
    eligible g main_config mirror_info version repo_data arch
    ∧ c = candidate mirror_url version repo_data arch.

Lemma arch_loop_written (version : string) (repo_data : RepoData.t)
    (arches : list string) (acc : list (string * url_info)) :
  version ∈ MainConfig.versions main_config →
  version_checked main_config mirror_info version →
  repo_data ∈ MainConfig.repos main_config →
  repo_checked g mirror_info version repo_data →
  arches ⊆ _get_arches_for_version (RepoData.arches repo_data)
             (MainConfig.arches main_config) →
  Forall written acc →
  Forall written
    (foldl (arch_body g main_config mirror_info mirror_url version repo_data)
       acc arches).
Proof.
  intros Hv Hvc Hr Hrc. revert acc.
  induction arches as [|arch arches IH]; intros acc Hsub Hacc; [done|].
  cbn. apply IH; [set_solver|].
  destruct (arch_checked_dec g main_config mirror_info version arch) as [Hc|Hc].
  - rewrite arch_body_checked by done.
    apply dict_set_Forall; [done|].
    exists version, repo_data, arch. split; [|done].
    split; [done..|set_solver|done].
  - by rewrite arch_body_skipped.
Qed.

Lemma repo_loop_written (version : string) (repos : list RepoData.t)
    (acc : list (string * url_info)) :
  version ∈ MainConfig.versions main_config →
  version_checked main_config mirror_info version →
  repos ⊆ MainConfig.repos main_config →
  Forall written acc →
  Forall written
    (foldl (repo_body g main_config mirror_info mirror_url version) acc repos).
Proof.
  intros Hv Hvc. revert acc.
  induction repos as [|repo_data repos IH]; intros acc Hsub Hacc; [done|].
  cbn. apply IH; [set_solver|].
  destruct (repo_checked_dec g mirror_info version repo_data) as [Hc|Hc].
  - rewrite repo_body_checked by done.
    apply arch_loop_written; [done..|set_solver|done|done|done].
  - by rewrite repo_body_skipped.
Qed.

Lemma version_loop_written (versions : list string)
    (acc : list (string * url_info)) :
  versions ⊆ MainConfig.versions main_config →
  Forall written acc →
  Forall written
    (foldl (version_body g main_config mirror_info mirror_url) acc versions).
Proof.
  revert acc.
  induction versions as [|version versions IH]; intros acc Hsub Hacc; [done|].
  cbn. apply IH; [set_solver|].
  destruct (version_checked_dec main_config mirror_info version) as [Hc|Hc].
  - rewrite version_body_checked by done.
    apply repo_loop_written; [set_solver|done..].
  - by rewrite version_body_skipped.
Qed.

Lemma urls_for_checking_written :
  Forall (λ c, ∃ version repo_data arch,
            eligible g main_config mirror_info version repo_data arch
            ∧ c = candidate mirror_url version repo_data arch)
    (urls_for_checking g main_config mirror_info mirror_url).
Proof. by apply version_loop_written. Qed.

(** A key that is in the dictionary stays in it. *)
Lemma arch_loop_keeps (k : string) (version : string) (repo_data : RepoData.t)
    (arches : list string) (acc : list (string * url_info)) :
  k ∈ keys acc →
  k ∈ keys (foldl (arch_body g main_config mirror_info mirror_url version
                     repo_data) acc arches).
Proof.
  revert acc. induction arches as [|arch arches IH]; intros acc Hk; [done|].
  cbn. apply IH.
  destruct (arch_checked_dec g main_config mirror_info version arch) as [Hc|Hc].
  - rewrite arch_body_checked by done. apply elem_of_keys_dict_set. by left.
  - by rewrite arch_body_skipped.
Qed.

Lemma repo_loop_keeps (k : string) (version : string)
    (repos : list RepoData.t) (acc : list (string * url_info)) :
  k ∈ keys acc →
  k ∈ keys (foldl (repo_body g main_config mirror_info mirror_url version)
              acc repos).
Proof.
  revert acc. induction repos as [|repo_data repos IH]; intros acc Hk; [done|].
  cbn. apply IH.
  destruct (repo_checked_dec g mirror_info version repo_data) as [Hc|Hc].
  - rewrite repo_body_checked by done. by apply arch_loop_keeps.
  - by rewrite repo_body_skipped.
Qed.

Lemma version_loop_keeps (k : string) (versions : list string)
    (acc : list (string * url_info)) :
  k ∈ keys acc →
  k ∈ keys (foldl (version_body g main_config mirror_info mirror_url)
              acc versions).
Proof.
  revert acc. induction versions as [|version versions IH]; intros acc Hk;
    [done|].
  cbn. apply IH.
  destruct (version_checked_dec main_config mirror_info version) as [Hc|Hc].
  - rewrite version_body_checked by done. by apply repo_loop_keeps.
  - by rewrite version_body_skipped.
Qed.

(** What is eligible gets its key. *)
Lemma arch_loop_reaches (version : string) (repo_data : RepoData.t)
    (arch : string) (arches : list string) (acc : list (string * url_info)) :
  arch ∈ arches →
  arch_checked g main_config mirror_info version arch →
  (candidate mirror_url version repo_data arch).1
  ∈ keys (foldl (arch_body g main_config mirror_info mirror_url version
                   repo_data) acc arches).
Proof.
  intros Hin Hc. revert acc.
  induction arches as [|arch' arches IH]; intros acc;
    [by apply not_elem_of_nil in Hin|].
  cbn. apply elem_of_cons in Hin as [<-|Hin]; [|by apply IH].
  apply arch_loop_keeps. rewrite arch_body_checked by done.
  apply elem_of_keys_dict_set. by right.
Qed.

Lemma repo_loop_reaches (version : string) (repo_data : RepoData.t)
    (arch : string) (repos : list RepoData.t)
    (acc : list (string * url_info)) :
  repo_data ∈ repos →
  repo_checked g mirror_info version repo_data →
  arch ∈ _get_arches_for_version (RepoData.arches repo_data)
           (MainConfig.arches main_config) →
  arch_checked g main_config mirror_info version arch →
  (candidate mirror_url version repo_data arch).1
  ∈ keys (foldl (repo_body g main_config mirror_info mirror_url version)
            acc repos).
Proof.
  intros Hin Hrc Ha Hac. revert acc.
  induction repos as [|repo' repos IH]; intros acc;
    [by apply not_elem_of_nil in Hin|].
  cbn. apply elem_of_cons in Hin as [<-|Hin]; [|by apply IH].
  apply repo_loop_keeps. rewrite repo_body_checked by done.
  by apply arch_loop_reaches.
Qed.

Lemma version_loop_reaches (version : string) (repo_data : RepoData.t)
    (arch : string) (versions : list string)
    (acc : list (string * url_info)) :
  version ∈ versions →
  version_checked main_config mirror_info version →
  repo_data ∈ MainConfig.repos main_config →
  repo_checked g mirror_info version repo_data →
  arch ∈ _get_arches_for_version (RepoData.arches repo_data)
           (MainConfig.arches main_config) →
  arch_checked g main_config mirror_info version arch →
  (candidate mirror_url version repo_data arch).1
  ∈ keys (foldl (version_body g main_config mirror_info mirror_url)
            acc versions).
Proof.
  intros Hin Hvc Hr Hrc Ha Hac. revert acc.
  induction versions as [|version' versions IH]; intros acc;
    [by apply not_elem_of_nil in Hin|].
  cbn. apply elem_of_cons in Hin as [<-|Hin]; [|by apply IH].
  apply version_loop_keeps. rewrite version_body_checked by done.
  by apply repo_loop_reaches.
Qed.

(** The keys stay distinct. *)
Lemma arch_loop_nodup (version : string) (repo_data : RepoData.t)
    (arches : list string) (acc : list (string * url_info)) :
  NoDup (keys acc) →
  NoDup (keys (foldl (arch_body g main_config mirror_info mirror_url version
                        repo_data) acc arches)).
Proof.
  revert acc. induction arches as [|arch arches IH]; intros acc Hk; [done|].
  cbn. apply IH.
  destruct (arch_checked_dec g main_config mirror_info version arch) as [Hc|Hc].
  - rewrite arch_body_checked by done. by apply NoDup_keys_dict_set.
  - by rewrite arch_body_skipped.
Qed.

Lemma repo_loop_nodup (version : string) (repos : list RepoData.t)
    (acc : list (string * url_info)) :
  NoDup (keys acc) →
  NoDup (keys (foldl (repo_body g main_config mirror_info mirror_url version)
                 acc repos)).
Proof.
  revert acc. induction repos as [|repo_data repos IH]; intros acc Hk; [done|].
  cbn. apply IH.
  destruct (repo_checked_dec g mirror_info version repo_data) as [Hc|Hc].
  - rewrite repo_body_checked by done. by apply arch_loop_nodup.
  - by rewrite repo_body_skipped.
Qed.

Lemma version_loop_nodup (versions : list string)
    (acc : list (string * url_info)) :
  NoDup (keys acc) →
  NoDup (keys (foldl (version_body g main_config mirror_info mirror_url)
                 acc versions)).
Proof.
  revert acc. induction versions as [|version versions IH]; intros acc Hk;
    [done|].
  cbn. apply IH.
  destruct (version_checked_dec main_config mirror_info version) as [Hc|Hc].
  - rewrite version_body_checked by done. by apply repo_loop_nodup.
  - by rewrite version_body_skipped.
Qed.

(** The dictionary grows by one entry per pass of the innermost loop, at
    most. *)
Lemma arch_loop_length (version : string) (repo_data : RepoData.t)
    (arches : list string) (acc : list (string * url_info)) :
  length (foldl (arch_body g main_config mirror_info mirror_url version
                   repo_data) acc arches)
  ≤ length acc + length arches.
Proof.
  revert acc. induction arches as [|arch arches IH]; intros acc; cbn; [lia|].
  etrans; [apply IH|].
  destruct (arch_checked_dec g main_config mirror_info version arch) as [Hc|Hc].
  - rewrite arch_body_checked by done.
    pose proof (length_dict_set acc
                  (candidate mirror_url version repo_data arch).1
                  (candidate mirror_url version repo_data arch).2). lia.
  - rewrite arch_body_skipped by done. lia.
Qed.

Lemma repo_loop_length (version : string) (repos : list RepoData.t)
    (acc : list (string * url_info)) :
  length (foldl (repo_body g main_config mirror_info mirror_url version)
            acc repos)
  ≤ length acc
    + sum_list
        (map (λ repo_data,
                length (_get_arches_for_version (RepoData.arches repo_data)
                          (MainConfig.arches main_config))) repos).
Proof.
  revert acc. induction repos as [|repo_data repos IH]; intros acc; cbn; [lia|].
  etrans; [apply IH|].
  destruct (repo_checked_dec g mirror_info version repo_data) as [Hc|Hc].
  - rewrite repo_body_checked by done.
    pose proof (arch_loop_length version repo_data
                  (_get_arches_for_version (RepoData.arches repo_data)
                     (MainConfig.arches main_config)) acc). lia.
  - rewrite repo_body_skipped by done. lia.
Qed.

Lemma version_loop_length (versions : list string)
    (acc : list (string * url_info)) :
  length (foldl (version_body g main_config mirror_info mirror_url)
            acc versions)
  ≤ length acc + length versions * arches_per_version main_config.
Proof.
  revert acc. induction versions as [|version versions IH]; intros acc; cbn;
    [lia|].
  etrans; [apply IH|].
  destruct (version_checked_dec main_config mirror_info version) as [Hc|Hc].
  - rewrite version_body_checked by done.
    pose proof (repo_loop_length version (MainConfig.repos main_config) acc).
    unfold arches_per_version. lia.
  - rewrite version_body_skipped by done. lia.
Qed.

End Enumeration_facts.

(** X1. Every entry of the enumeration was written for a version, a repo
    and an arch that pass all the tests of the three loops: the version is
    one of the configuration, is no beta version when the mirror is a
    cloud mirror and is no duplicated version; the repo is one of the
    configuration, is no vault repo, has the version among its versions
    when it lists any and is in the override of the mirror when there is
    one; the arch is one of the repo (or of the configuration when the
    repo lists none), is permitted for the version by [versions_arches]
    and is in the override of the mirror when there is one. *)
Theorem enumeration_only_eligible
    (g : globals) (main_config : MainConfig.t) (mirror_info : MirrorData.t)
    (mirror_url : string) :
  Forall (λ c, ∃ version repo_data arch,
            eligible g main_config mirror_info version repo_data arch
            ∧ c.1 = url_for_check mirror_url version
                      (repo_path_for repo_data arch)
            ∧ info_version c.2 = version
            ∧ info_repo_path c.2 = repo_path_for repo_data arch)
    (urls_for_checking g main_config mirror_info mirror_url).
Proof.
  eapply Forall_impl; [apply urls_for_checking_written|].
  intros c (version & repo_data & arch & Hel & ->).
  by exists version, repo_data, arch.
Qed.

(** X2. Nothing eligible is left out: for every version, repo and arch
    that pass all the tests, the URL built for them is a key of the
    enumeration. *)
Theorem enumeration_has_every_eligible
    (g : globals) (main_config : MainConfig.t) (mirror_info : MirrorData.t)
    (mirror_url version : string) (repo_data : RepoData.t) (arch : string)
    (Heligible : eligible g main_config mirror_info version repo_data arch) :
  url_for_check mirror_url version (repo_path_for repo_data arch)
  ∈ keys (urls_for_checking g main_config mirror_info mirror_url).
Proof.
  destruct Heligible.
  by apply (version_loop_reaches g main_config mirror_info mirror_url
              version repo_data arch).
Qed.

Lemma example_eligible :
  eligible utils_globals example_config example_mirror "8" baseos "x86_64".
Proof.
  split.
  - apply list_elem_of_here.
  - split; [done|]. apply lookup_empty.
  - apply list_elem_of_here.
  - split_and!; [|done|by left].
    intros entry Hentry. vm_compute in Hentry. discriminate.
  - apply list_elem_of_here.
  - split.
    + intros entry Hentry. vm_compute in Hentry. discriminate.
    + intros allowed Hallowed. vm_compute in Hallowed. discriminate.
Defined.

Lemma enumeration_has_every_eligible_witness :
  eligible utils_globals example_config example_mirror "8" baseos "x86_64"
  ∧ url_for_check "https://example.org/almalinux" "8"
      (repo_path_for baseos "x86_64")
    ∈ keys (urls_for_checking utils_globals example_config example_mirror
              "https://example.org/almalinux").
Proof.
  split; [apply example_eligible|].
  apply (enumeration_has_every_eligible utils_globals example_config
           example_mirror "https://example.org/almalinux" "8" baseos "x86_64").
  apply example_eligible.
Defined.

(** X3. No URL is enumerated twice: two combinations of version, repo and
    arch that give the same URL give one entry, so that every URL is
    probed once. *)
Theorem enumeration_urls_distinct
    (g : globals) (main_config : MainConfig.t) (mirror_info : MirrorData.t)
    (mirror_url : string) :
  NoDup (keys (urls_for_checking g main_config mirror_info mirror_url)).
Proof. apply version_loop_nodup. constructor. Qed.

(** X4. A version that is a key of [duplicated_versions] is the version
    of no entry of the enumeration. *)
Theorem enumeration_skips_duplicated_versions
    (g : globals) (main_config : MainConfig.t) (mirror_info : MirrorData.t)
    (mirror_url : string) :
  Forall (λ c, MainConfig.duplicated_versions main_config
                 !! info_version c.2 = None)
    (urls_for_checking g main_config mirror_info mirror_url).
Proof.
  eapply Forall_impl; [apply urls_for_checking_written|].
  intros c (version & repo_data & arch & Hel & ->).
  by destruct Hel as [_ [_ ?] _ _ _ _].
Qed.

(** X5. For a cloud mirror (one with a [cloud_type]) no entry of the
    enumeration has a version with [beta] in its name. *)
Theorem enumeration_skips_beta_for_cloud
    (g : globals) (main_config : MainConfig.t) (mirror_info : MirrorData.t)
    (mirror_url : string)
    (Hcloud : MirrorData.cloud_type mirror_info ≠ EmptyString) :
  Forall (λ c, ¬ occurs "beta" (info_version c.2))
    (urls_for_checking g main_config mirror_info mirror_url).
Proof.
  eapply Forall_impl; [apply urls_for_checking_written|].
  intros c (version & repo_data & arch & Hel & ->).
  destruct Hel as [_ [Hbeta _] _ _ _ _]. by apply Hbeta.
Qed.

Lemma enumeration_skips_beta_for_cloud_witness :
  MirrorData.cloud_type azure_mirror ≠ EmptyString
  ∧ Forall (λ c, ¬ occurs "beta" (info_version c.2))
      (urls_for_checking utils_globals many_arches_config azure_mirror
         "https://eastus.azure.repo.almalinux.org/almalinux").
Proof.
  split; [discriminate|].
  apply (enumeration_skips_beta_for_cloud utils_globals many_arches_config
           azure_mirror "https://eastus.azure.repo.almalinux.org/almalinux").
  discriminate.
Defined.

(** X6. Every entry is filed under the URL that its own version and repo
    path give, so that a warning about a URL names the version and the
    repo path of that URL. *)
Theorem enumeration_key_matches_info
    (g : globals) (main_config : MainConfig.t) (mirror_info : MirrorData.t)
    (mirror_url : string) :
  Forall (λ c, c.1 = url_for_check mirror_url (info_version c.2)
                       (info_repo_path c.2))
    (urls_for_checking g main_config mirror_info mirror_url).
Proof.
  eapply Forall_impl; [apply urls_for_checking_written|].
  by intros c (version & repo_data & arch & Hel & ->).
Qed.

(** X7. The enumeration has at most one URL per version of the
    configuration and arch of a repo of the configuration. *)
Theorem enumeration_size_bound
    (g : globals) (main_config : MainConfig.t) (mirror_info : MirrorData.t)
    (mirror_url : string) :
  length (urls_for_checking g main_config mirror_info mirror_url)
  ≤ length (MainConfig.versions main_config) * arches_per_version main_config.
Proof.
  pose proof (version_loop_length g main_config mirror_info mirror_url
                (MainConfig.versions main_config) []) as H.
  cbn in H. apply H.
Qed.

(** The enumeration is empty exactly when nothing is eligible. *)
Lemma urls_for_checking_empty
    (g : globals) (main_config : MainConfig.t) (mirror_info : MirrorData.t)
    (mirror_url : string) :
  urls_for_checking g main_config mirror_info mirror_url = []
  ↔ ∀ version repo_data arch,
      ¬ eligible g main_config mirror_info version repo_data arch.
Proof.
  split.
  - intros Hempty version repo_data arch Hel.
    pose proof (version_loop_reaches g main_config mirror_info mirror_url
                  version repo_data arch (MainConfig.versions main_config) [])
      as Hin.
    destruct Hel. unfold urls_for_checking in Hempty.
    rewrite Hempty in Hin. by apply not_elem_of_nil in Hin.
  - intros Hnone.
    pose proof (urls_for_checking_written g main_config mirror_info mirror_url)
      as Hall.
    destruct (urls_for_checking g main_config mirror_info mirror_url)
      as [|c rest]; [done|].
    inversion Hall as [|? ? (version & repo_data & arch & Hel & _) _].
    by destruct (Hnone version repo_data arch).
Qed.

(** ** More on the prober *)

(** The outcome of the prober does not depend on the messages. *)
Lemma is_url_available_outcome
    (g : globals) (url : string) (http_session : ClientSession)
    (is_get_request : bool) (success_msg error_msg : option log_msg)
    (success_msg_vars error_msg_vars : option (list (string * string))) :
  fst (is_url_available g url http_session is_get_request
         success_msg success_msg_vars error_msg error_msg_vars)
  = match fetch g http_session is_get_request url with
    | Ret _ => Ret true
    | Raise err => if expected_failure err then Ret false else Raise err
    end.
Proof.
  unfold is_url_available, expected_failure.
  destruct (fetch _ _ _ _) as [[]|err]; [done|].
  destruct (isinstance err TimeoutError || isinstance err HTTPError
            || isinstance err ClientError || isinstance err UnicodeError);
    [done|].
  cbn. by destruct (isinstance err CancelledError).
Qed.

(** The prober issues one request and then logs at most one line. *)
Lemma is_url_available_events
    (g : globals) (url : string) (http_session : ClientSession)
    (is_get_request : bool) (success_msg error_msg : option log_msg)
    (success_msg_vars error_msg_vars : option (list (string * string))) :
  ∃ logs,
    snd (is_url_available g url http_session is_get_request
           success_msg success_msg_vars error_msg error_msg_vars)
    = EvRequest (if is_get_request then GET else HEAD) url :: logs
    ∧ Forall (λ ev, is_request ev = false) logs.
Proof.
  unfold is_url_available.
  destruct (fetch _ _ _ _) as [[]|err].
  - destruct success_msg, success_msg_vars; eexists; (split; [done|]);
      by repeat constructor.
  - destruct (isinstance err TimeoutError || isinstance err HTTPError
              || isinstance err ClientError || isinstance err UnicodeError).
    + destruct error_msg, error_msg_vars; eexists; (split; [done|]);
        by repeat constructor.
    + destruct (isinstance err CancelledError); eexists; (split; [done|]);
        by repeat constructor.
Qed.

(** X8. A HEAD probe does not read the body: when the request gives a
    response, the prober returns [True], also for a response whose body
    cannot be decoded. A body that cannot be decoded makes only a GET
    probe fail. *)
Theorem head_probe_ignores_body
    (g : globals) (url : string) (http_session : ClientSession)
    (success_msg error_msg : option log_msg)
    (success_msg_vars error_msg_vars : option (list (string * string)))
    (response : ClientResponse) (err : exn)
    (Hhead : session_request http_session HEAD url (HEADERS g) = Ret response)
    (Hget : session_request http_session GET url (HEADERS g) = Ret response)
    (Hbody : response_text response = Raise err)
    (Hunicode : isinstance err UnicodeError = true) :
  fst (is_url_available g url http_session false
         success_msg success_msg_vars error_msg error_msg_vars) = Ret true
  ∧ fst (is_url_available g url http_session true
           success_msg success_msg_vars error_msg error_msg_vars) = Ret false.
Proof.
  rewrite !is_url_available_outcome. unfold fetch.
  rewrite Hhead, Hget, Hbody. split; [done|].
  unfold expected_failure. rewrite Hunicode.
  by rewrite !orb_true_r.
Qed.

Lemma head_probe_ignores_body_witness :
  fst (is_url_available utils_globals "https://example.org/x" garbled_session
         false None None None None) = Ret true
  ∧ fst (is_url_available utils_globals "https://example.org/x"
           garbled_session true None None None None) = Ret false.
Proof.
  apply (head_probe_ignores_body utils_globals "https://example.org/x"
           garbled_session None None None None
           {| response_text := Raise unicode_decode_error |}
           unicode_decode_error); reflexivity.
Defined.

(** ** More on the aggregation *)

Lemma waits_app (tr1 tr2 : list event) : waits (tr1 ++ tr2) = waits tr1 + waits tr2.
Proof. unfold waits. by rewrite List.filter_app, length_app. Qed.

Lemma logs_shape (ts : list Task) :
  waits (flat_map (λ t, List.filter is_log (task_events t)) ts) = 0
  ∧ Forall (λ ev, is_request ev = false)
      (flat_map (λ t, List.filter is_log (task_events t)) ts).
Proof.
  induction ts as [|t ts [IHw IHr]]; [by split|]. cbn [flat_map].
  rewrite waits_app, IHw, Forall_app.
  assert (H : waits (List.filter is_log (task_events t)) = 0
              ∧ Forall (λ ev, is_request ev = false)
                  (List.filter is_log (task_events t))).
  { induction (task_events t) as [|ev evs [IH1 IH2]]; [by split|].
    cbn. destruct ev; cbn; try done. split; [done|by constructor]. }
  destruct H as [-> H]. done.
Qed.

Lemma wave_shape (done_tasks pending_tasks : list Task) :
  waits (wave_events done_tasks pending_tasks) = 1
  ∧ Forall (λ ev, is_request ev = false)
      (wave_events done_tasks pending_tasks).
Proof.
  unfold wave_events. destruct (logs_shape done_tasks) as [Hw Hr].
  rewrite waits_app, Hw, Forall_app. split; [done|].
  split; [done|by repeat constructor].
Qed.

Lemma cancels_shape (ts : list Task) :
  waits (map (λ t, EvCancel (task_url t)) ts) = 0
  ∧ Forall (λ ev, is_request ev = false)
      (map (λ t, EvCancel (task_url t)) ts).
Proof.
  induction ts as [|t ts [IHw IHr]]; [by split|]. cbn. split; [done|].
  by constructor.
Qed.

(** The trace of [_check_tasks] holds no request, and one wait at least
    and one wait per task at most. *)
Lemma check_tasks_trace (created_tasks : list Task) :
  created_tasks ≠ [] →
  Forall (λ ev, is_request ev = false) (snd (_check_tasks created_tasks))
  ∧ 1 ≤ waits (snd (_check_tasks created_tasks))
  ∧ waits (snd (_check_tasks created_tasks)) ≤ length created_tasks.
Proof.
  remember (length created_tasks) as n eqn:Hn. revert created_tasks Hn.
  induction n as [n IH] using lt_wf_ind. intros created_tasks -> Hne.
  destruct (asyncio_wait_returns created_tasks Hne)
    as (done_tasks & pending_tasks & Hwait & _ & _ & Hlt).
  rewrite (check_tasks_unfold _ _ _ Hwait Hlt). cbn zeta.
  destruct (wave_shape done_tasks pending_tasks) as [Hw Hr].
  destruct (cancels_shape pending_tasks) as [Hcw Hcr].
  destruct (scan_done done_tasks) as [| |err].
  - destruct pending_tasks as [|p ps]; cbn [snd].
    + rewrite Hw. split_and!; [done|lia|lia].
    + destruct (IH _ Hlt (p :: ps) eq_refl) as (IHr & IH1 & IH2); [done|].
      rewrite waits_app, Hw, Forall_app. split_and!; [done..|lia|lia].
  - cbn [snd]. rewrite waits_app, Hw, Hcw, Forall_app.
    split_and!; [done..|lia|lia].
  - cbn [snd]. rewrite Hw. split_and!; [done|lia|lia].
Qed.

(** X9. When [_check_tasks] returns [False], some probe has returned
    [False], and every probe was either found done by a wait or
    cancelled: no probe is left running without having been looked at. *)
Theorem check_tasks_false_accounts_for_all (created_tasks : list Task)
    (Hlaunched : created_tasks ≠ [])
    (Hfalse : fst (_check_tasks created_tasks) = Ret false) :
  (∃ t, t ∈ created_tasks ∧ task_result t = Ret false)
  ∧ awaited (snd (_check_tasks created_tasks))
    ++ cancelled (snd (_check_tasks created_tasks))
    ≡ₚ map task_url created_tasks.
Proof.
  pose proof (check_tasks_outcome created_tasks Hlaunched) as H.
  by rewrite Hfalse in H.
Qed.

Lemma check_tasks_false_accounts_for_all_witness :
  (∃ t, t ∈ five_probes ∧ task_result t = Ret false)
  ∧ awaited (snd (_check_tasks five_probes))
    ++ cancelled (snd (_check_tasks five_probes))
    ≡ₚ map task_url five_probes.
Proof.
  apply (check_tasks_false_accounts_for_all five_probes);
    [discriminate|reflexivity].
Defined.



(** X11. [_check_tasks] calls [asyncio.wait] once per task at most: the
    depth of its recursion is bounded by the number of tasks, and each
    call takes at least one task off the pending ones. *)
Theorem check_tasks_waits_bounded (created_tasks : list Task) :
  waits (snd (_check_tasks created_tasks)) ≤ length created_tasks
  ∧ (created_tasks ≠ [] → 1 ≤ waits (snd (_check_tasks created_tasks))).
Proof.
  destruct created_tasks as [|t ts]; [by split|].
  destruct (check_tasks_trace (t :: ts)) as (_ & H1 & H2); [done|].
  by split.
Qed.

(** ** More on [mirror_available] *)

Section Launched.

Variables (g : globals) (loop : EventLoop) (mirror_info : MirrorData.t)
          (http_session : ClientSession) (main_config : MainConfig.t)
          (mirror_url : string).

Let tasks := launched g loop mirror_info http_session main_config mirror_url.
Let candidates := urls_for_checking g main_config mirror_info mirror_url.

(** What a probe of [url] ends with. *)
Let ends_with (url : string) : result bool :=
  match fetch g http_session true url with
  | Ret _ => Ret true
  | Raise err => if expected_failure err then Ret false else Raise err
  end.


Lemma launched_results : map task_result tasks = map ends_with (keys candidates).
Proof.
  unfold tasks, launched, keys, candidates.
  induction (urls_for_checking _ _ _ _) as [|[url info] l IH]; [done|].
  cbn. by rewrite IH, is_url_available_outcome.
Qed.

Lemma launched_requests :
  flat_map (λ t, List.filter is_request (task_events t)) tasks
  = map (EvRequest GET) (keys candidates).
Proof.
  unfold tasks, launched, keys, candidates.
  induction (urls_for_checking _ _ _ _) as [|[url info] l IH]; [done|].
  cbn [map flat_map fst]. rewrite IH. cbn [ensure_future task_events].
  destruct (is_url_available_events g url http_session true
              (Some MsgUrlAvailable) (Some MsgUrlNotAvailable) None
              (Some [("name", MirrorData.name mirror_info);
                     ("version", info_version info);
                     ("repo", info_repo_path info)]))
    as (logs & -> & Hlogs).
  cbn. f_equal.
  induction Hlogs as [|ev evs Hev _ IHl]; [done|]. cbn. by rewrite Hev.
Qed.




(** [mirror_available] for a mirror that is probed. *)
Lemma mirror_available_launched :
  MirrorData.private mirror_info = false →
  next_address (MirrorData.urls mirror_info)
    (MainConfig.required_protocols main_config) = Some mirror_url →
  mirror_available g loop mirror_info http_session main_config
  = let checking :=
      EvLog INFO MsgChecking (Positional [MirrorData.name mirror_info]) in
    let started :=
      flat_map (λ t, List.filter is_request (task_events t)) tasks in
    match _check_tasks tasks with
    | (Raise err, tr) => (Raise err, checking :: started ++ tr)
    | (Ret false, tr) =>
        (Ret (MirrorData.name mirror_info, false), checking :: started ++ tr)
    | (Ret true, tr) =>
        (Ret (MirrorData.name mirror_info, true),
         checking :: started ++ tr
         ++ [EvLog INFO MsgMirrorAvailable
               (Positional [MirrorData.name mirror_info])])
    end.
Proof.
  intros Hpublic Hnext. unfold mirror_available. by rewrite Hpublic, Hnext.
Qed.


End Launched.



Lemma filter_requests_none (tr : list event) :
  Forall (λ ev, is_request ev = false) tr → List.filter is_request tr = [].
Proof. induction 1 as [|ev tr Hev _ IH]; [done|]. cbn. by rewrite Hev. Qed.

Lemma filter_requests_all (method : http_method) (urls : list string) :
  List.filter is_request (map (EvRequest method) urls)
  = map (EvRequest method) urls.
Proof. induction urls as [|url urls IH]; [done|]. cbn. by rewrite IH. Qed.

(** X12. The requests that [mirror_available] issues are one GET request
    per URL of the enumeration for the chosen base URL, in the order of
    the enumeration, and nothing else: no HEAD request, no request for a
    private mirror or for a mirror without a required protocol, and no
    second request for a URL. *)
Theorem mirror_available_requests
    (g : globals) (loop : EventLoop) (mirror_info : MirrorData.t)
    (http_session : ClientSession) (main_config : MainConfig.t) :
  List.filter is_request
    (snd (mirror_available g loop mirror_info http_session main_config))
  = if MirrorData.private mirror_info then []
    else match next_address (MirrorData.urls mirror_info)
                 (MainConfig.required_protocols main_config) with
         | None => []
         | Some mirror_url =>
             map (EvRequest GET)
               (keys (urls_for_checking g main_config mirror_info mirror_url))
         end.
Proof.
  destruct (MirrorData.private mirror_info) eqn:Hprivate.
  { unfold mirror_available. by rewrite Hprivate. }
  destruct (next_address _ _) as [mirror_url|] eqn:Hnext.
  2: { unfold mirror_available. by rewrite Hprivate, Hnext. }
  rewrite (mirror_available_launched _ _ _ _ _ mirror_url Hprivate Hnext).
  cbn zeta. rewrite launched_requests.
  set (tasks := launched g loop mirror_info http_session main_config mirror_url).
  assert (Htr : List.filter is_request (snd (_check_tasks tasks)) = []).
  { destruct tasks as [|t ts] eqn:E; [done|].
    apply filter_requests_none. by apply check_tasks_trace. }
  destruct (_check_tasks tasks) as [[[]|err] tr]; cbn [snd] in *;
    cbn [List.filter is_request];
    rewrite ?List.filter_app, filter_requests_all, Htr; cbn;
    by rewrite ?app_nil_r.
Qed.



Example one_arch_unreachable :
  mirror_available utils_globals longest_first example_mirror
    x86_only_session two_arches_config
  = (Ret ("example.org", false),
     [EvLog INFO MsgChecking (Positional ["example.org"]);
      EvRequest GET "https://example.org/almalinux/8/x86_64/os/repodata/repomd.xml";
      EvRequest GET "https://example.org/almalinux/8/aarch64/os/repodata/repomd.xml";
      EvRequest GET "https://example.org/almalinux/9/x86_64/os/repodata/repomd.xml";
      EvRequest GET "https://example.org/almalinux/9/aarch64/os/repodata/repomd.xml";
      EvLog WARNING MsgUrlNotAvailable
        (Named [("name", "example.org"); ("version", "8");
                ("repo", "aarch64/os"); ("err", "Cannot connect to host")]);
      EvLog WARNING MsgUrlNotAvailable
        (Named [("name", "example.org"); ("version", "9");
                ("repo", "aarch64/os"); ("err", "Cannot connect to host")]);
      EvWait
        ["https://example.org/almalinux/8/aarch64/os/repodata/repomd.xml";
         "https://example.org/almalinux/9/aarch64/os/repodata/repomd.xml"]
        ["https://example.org/almalinux/8/x86_64/os/repodata/repomd.xml";
         "https://example.org/almalinux/9/x86_64/os/repodata/repomd.xml"];
      EvCancel "https://example.org/almalinux/8/x86_64/os/repodata/repomd.xml";
      EvCancel "https://example.org/almalinux/9/x86_64/os/repodata/repomd.xml"]).
Proof. vm_compute. reflexivity. Qed.





(** X16. A mirror that is not private and has a base URL, but for which
    no version, repo and arch pass the tests of the enumeration (all
    versions are duplicated, all repos are vault repos, and so on), is
    not reported at all: [asyncio.wait] gets an empty list and
    [mirror_available] ends with its [ValueError], before any request. *)
Theorem nothing_eligible_raises
    (g : globals) (loop : EventLoop) (mirror_info : MirrorData.t)
    (http_session : ClientSession) (main_config : MainConfig.t)
    (mirror_url : string)
    (Hpublic : MirrorData.private mirror_info = false)
    (Hnext : next_address (MirrorData.urls mirror_info)
               (MainConfig.required_protocols main_config) = Some mirror_url)
    (Hnone : ∀ version repo_data arch,
        ¬ eligible g main_config mirror_info version repo_data arch) :
  mirror_available g loop mirror_info http_session main_config
  = (Raise empty_wait_error,
     [EvLog INFO MsgChecking (Positional [MirrorData.name mirror_info])]).
Proof.
  apply (mirror_available_no_candidates _ _ _ _ _ mirror_url); [done..|].
  by apply urls_for_checking_empty.
Qed.

Lemma nothing_eligible_raises_witness :
  mirror_available utils_globals same_turn example_mirror ok_session
    only_vault_config
  = (Raise empty_wait_error,
     [EvLog INFO MsgChecking (Positional [MirrorData.name example_mirror])]).
Proof.
  apply (nothing_eligible_raises utils_globals same_turn example_mirror
           ok_session only_vault_config "https://example.org/almalinux").
  - reflexivity.
  - reflexivity.
  - intros version repo_data arch [_ _ Hrepo (_ & Hvault & _) _ _].
    cbn in Hrepo. apply list_elem_of_singleton in Hrepo. subst repo_data.
    discriminate.
Defined.

(** ** [process_main_config] *)

Lemma attributes_loop_returns (repo_name : string)
    (repo_attributes attributes : list string) :
  attributes_loop repo_name repo_attributes attributes = Ret tt
  ↔ repo_attributes ⊆ attributes.
Proof.
  induction repo_attributes as [|x rest IH]; cbn.
  - split; [|done]. intros _ y Hy. by apply not_elem_of_nil in Hy.
  - case_bool_decide as Hx.
    + rewrite IH. split.
      * intros Hrest y [->|Hy]%elem_of_cons; [done|by apply Hrest].
      * intros Hall y Hy. by apply Hall, list_elem_of_further.
    + split; [done|]. intros Hsub. destruct Hx. apply Hsub, list_elem_of_here.
Qed.

Lemma attributes_loop_raises (repo_name : string)
    (checked : list string) (bad : string) (rest attributes : list string) :
  checked ⊆ attributes → bad ∉ attributes →
  attributes_loop repo_name (checked ++ bad :: rest) attributes
  = Raise (validation_error (absent_message bad repo_name attributes)).
Proof.
  intros Hchecked Hbad. induction checked as [|x checked IH]; cbn.
  - by rewrite bool_decide_eq_false_2.
  - rewrite bool_decide_eq_true_2 by (apply Hchecked, list_elem_of_here).
    apply IH. set_solver.
Qed.

Lemma attributes_loop_raises_validation (repo_name : string)
    (repo_attributes attributes : list string) (err : exn) :
  attributes_loop repo_name repo_attributes attributes = Raise err →
  isinstance err (OtherClass "ValidationError") = true.
Proof.
  induction repo_attributes as [|x rest IH]; cbn; [done|].
  case_bool_decide; [done|]. by intros [= <-].
Qed.

(** The repo that is built from a repo of the file. *)
Lemma process_repo_returns (yaml_data : YamlConfig.t) (repo : YamlRepo.t)
    (repo_data : RepoData.t) :
  process_repo yaml_data repo = Ret repo_data
  ↔ repo_within yaml_data repo
    ∧ repo_data
      = {| RepoData.name := YamlRepo.name repo;
           RepoData.path := YamlRepo.path repo;
           RepoData.arches := default [] (YamlRepo.arches repo);
           RepoData.versions :=
             map py_str (default [] (YamlRepo.versions repo));
           RepoData.vault := default false (YamlRepo.vault repo) |}.
Proof.
  unfold process_repo, _process_repo_attributes, repo_within.
  rewrite <- !attributes_loop_returns with (repo_name := YamlRepo.name repo).
  destruct (attributes_loop _ (default [] (YamlRepo.arches repo)) _)
    as [[]|err1].
  - destruct (attributes_loop _ (map py_str _) _) as [[]|err2].
    + split; [by intros [= <-]|by intros [_ ->]].
    + split; [done|by intros [[_ ?] _]].
  - split; [done|by intros [[? _] _]].
Qed.

Lemma process_repo_raises_validation (yaml_data : YamlConfig.t)
    (repo : YamlRepo.t) (err : exn) :
  process_repo yaml_data repo = Raise err →
  isinstance err (OtherClass "ValidationError") = true.
Proof.
  unfold process_repo, _process_repo_attributes.
  destruct (attributes_loop _ (default [] (YamlRepo.arches repo)) _)
    as [[]|err1] eqn:E1.
  - destruct (attributes_loop _ (map py_str _) _) as [[]|err2] eqn:E2; [done|].
    intros [= <-]. by eapply attributes_loop_raises_validation.
  - intros [= <-]. by eapply attributes_loop_raises_validation.
Qed.

Lemma process_repos_returns (yaml_data : YamlConfig.t)
    (repos : list YamlRepo.t) (repos_data : list RepoData.t) :
  process_repos yaml_data repos = Ret repos_data →
  Forall (repo_within yaml_data) repos
  ∧ Forall (λ repo_data,
              RepoData.arches repo_data ⊆ YamlConfig.arches yaml_data
              ∧ RepoData.versions repo_data
                ⊆ map py_str (YamlConfig.versions yaml_data)) repos_data.
Proof.
  revert repos_data. induction repos as [|repo rest IH]; intros repos_data; cbn.
  - intros [= <-]. by split.
  - destruct (process_repo yaml_data repo) as [repo_data|err] eqn:E; [|done].
    destruct (process_repos yaml_data rest) as [rest_data|err]; [|done].
    intros [= <-]. destruct (IH rest_data eq_refl) as [IH1 IH2].
    apply process_repo_returns in E as [Hwithin ->].
    split; constructor; try done.
Qed.

Lemma process_repos_within (yaml_data : YamlConfig.t) (repos : list YamlRepo.t) :
  Forall (repo_within yaml_data) repos →
  ∃ repos_data, process_repos yaml_data repos = Ret repos_data.
Proof.
  induction 1 as [|repo rest Hrepo _ [rest_data IH]]; cbn; [by eexists|].
  destruct (process_repo yaml_data repo) as [repo_data|err] eqn:E.
  - rewrite IH. by eexists.
  - exfalso. clear IH. unfold process_repo, _process_repo_attributes in E.
    destruct Hrepo as [Ha Hv].
    apply (attributes_loop_returns (YamlRepo.name repo)) in Ha, Hv.
    by rewrite Ha, Hv in E.
Qed.

Lemma process_repos_raises_validation (yaml_data : YamlConfig.t)
    (repos : list YamlRepo.t) (err : exn) :
  process_repos yaml_data repos = Raise err →
  isinstance err (OtherClass "ValidationError") = true.
Proof.
  induction repos as [|repo rest IH]; cbn; [done|].
  destruct (process_repo yaml_data repo) as [repo_data|err1] eqn:E.
  - destruct (process_repos yaml_data rest) as [rest_data|err2]; [done|].
    intros [= <-]. by apply IH.
  - intros [= <-]. by eapply process_repo_raises_validation.
Qed.

(** X17. A configuration that [process_main_config] hands out has no
    error message beside it, and every repo in it asks only for arches
    of the main list of arches and for versions of the main list of
    versions. *)
Theorem processed_config_repos_within
    (yaml_data : YamlConfig.t) (config : ProcessedConfig.t)
    (message : option string)
    (Hprocessed : process_main_config yaml_data = Ret (Some config, message)) :
  message = None
  ∧ Forall (λ repo_data,
              RepoData.arches repo_data
              ⊆ MainConfig.arches (ProcessedConfig.main config)
              ∧ RepoData.versions repo_data
                ⊆ MainConfig.versions (ProcessedConfig.main config))
      (MainConfig.repos (ProcessedConfig.main config)).
Proof.
  unfold process_main_config in Hprocessed.
  destruct (process_repos yaml_data (YamlConfig.repos yaml_data))
    as [repos_data|err] eqn:E.
  - injection Hprocessed as <- <-. split; [done|]. cbn.
    by apply process_repos_returns in E as [_ ?].
  - by destruct (isinstance err (OtherClass "ValidationError")).
Qed.

Lemma processed_config_repos_within_witness :
  ∃ config,
    process_main_config (yaml_config [yaml_baseos; yaml_nfv])
    = Ret (Some config, None)
    ∧ (None : option string) = None
    ∧ Forall (λ repo_data,
                RepoData.arches repo_data
                ⊆ MainConfig.arches (ProcessedConfig.main config)
                ∧ RepoData.versions repo_data
                  ⊆ MainConfig.versions (ProcessedConfig.main config))
        (MainConfig.repos (ProcessedConfig.main config)).
Proof.
  eexists. split; [vm_compute; reflexivity|].
  eapply (processed_config_repos_within (yaml_config [yaml_baseos; yaml_nfv])).
  vm_compute. reflexivity.
Defined.

(** X18. [process_main_config] never raises. It hands out a
    configuration and no message when every repo of the file asks only
    for arches and versions of the main lists, and no configuration and a
    message otherwise. Versions are compared as strings: the integer [8]
    and the string ["8"] are the same version. *)
Theorem process_main_config_accepts_iff (yaml_data : YamlConfig.t) :
  (Forall (repo_within yaml_data) (YamlConfig.repos yaml_data)
   ∧ ∃ config, process_main_config yaml_data = Ret (Some config, None))
  ∨ (¬ Forall (repo_within yaml_data) (YamlConfig.repos yaml_data)
     ∧ ∃ message, process_main_config yaml_data = Ret (None, Some message)).
Proof.
  unfold process_main_config.
  destruct (process_repos yaml_data (YamlConfig.repos yaml_data))
    as [repos_data|err] eqn:E.
  - left. apply process_repos_returns in E as [Hwithin _].
    split; [done|]. by eexists.
  - right. rewrite (process_repos_raises_validation _ _ _ E). split.
    + intros [repos_data Hret]%process_repos_within. congruence.
    + by eexists.
Qed.

Lemma process_repos_first_offender (yaml_data : YamlConfig.t)
    (before : list YamlRepo.t) (bad : YamlRepo.t) (after : list YamlRepo.t)
    (err : exn) :
  Forall (repo_within yaml_data) before →
  process_repo yaml_data bad = Raise err →
  process_repos yaml_data (before ++ bad :: after) = Raise err.
Proof.
  intros Hbefore Hbad.
  induction Hbefore as [|repo rest Hrepo _ IH]; cbn; [by rewrite Hbad|].
  destruct (process_repo yaml_data repo) as [repo_data|err1] eqn:E.
  - by rewrite IH.
  - exfalso. unfold process_repo, _process_repo_attributes in E.
    destruct Hrepo as [Ha Hv].
    apply (attributes_loop_returns (YamlRepo.name repo)) in Ha, Hv.
    by rewrite Ha, Hv in E.
Qed.

(** X19. The message of [process_main_config] is about the first repo of
    the file that asks for an arch outside the main list (the repos
    before it being in order), and about the first such arch of that
    repo. The arches of a repo are looked at before its versions: when
    the repo also asks for an unknown version, the message is still
    about the arch. *)
Theorem process_main_config_first_unknown_arch
    (yaml_data : YamlConfig.t)
    (before : list YamlRepo.t) (bad : YamlRepo.t) (after : list YamlRepo.t)
    (known : list string) (unknown : string) (others : list string)
    (Hrepos : YamlConfig.repos yaml_data = before ++ bad :: after)
    (Hbefore : Forall (repo_within yaml_data) before)
    (Harches : YamlRepo.arches bad = Some (known ++ unknown :: others))
    (Hknown : known ⊆ YamlConfig.arches yaml_data)
    (Hunknown : unknown ∉ YamlConfig.arches yaml_data) :
  process_main_config yaml_data
  = Ret (None,
         Some (absent_message unknown (YamlRepo.name bad)
                 (YamlConfig.arches yaml_data))).
Proof.
  unfold process_main_config. rewrite Hrepos.
  rewrite (process_repos_first_offender yaml_data before bad after
             (validation_error
                (absent_message unknown (YamlRepo.name bad)
                   (YamlConfig.arches yaml_data)))); [done|done|].
  unfold process_repo, _process_repo_attributes. rewrite Harches.
  cbn [default from_option id].
  by rewrite attributes_loop_raises.
Qed.

Lemma process_main_config_first_unknown_arch_witness :
  process_main_config (yaml_config [yaml_baseos; yaml_rt; yaml_nfv])
  = Ret (None, Some (absent_message "riscv64" "RT" ["x86_64"; "aarch64"])).
Proof.
  apply (process_main_config_first_unknown_arch
           (yaml_config [yaml_baseos; yaml_rt; yaml_nfv])
           [yaml_baseos] yaml_rt [yaml_nfv] ["x86_64"] "riscv64" []).
  - reflexivity.
  - constructor; [|constructor]. split; cbn; intros x Hx;
      by apply not_elem_of_nil in Hx.
  - reflexivity.
  - intros x Hx. apply list_elem_of_singleton in Hx as ->.
    apply list_elem_of_here.
  - cbn. intros Hin. apply elem_of_cons in Hin as [Hin|Hin]; [discriminate|].
    apply list_elem_of_singleton in Hin. discriminate.
Defined.

(** X20. For a configuration that [process_main_config] has handed out,
    every URL of the enumeration is built for a version of the main list
    of versions and for an arch of the main list of arches, also for a
    repo that has arches and versions of its own. *)
Theorem processed_config_enumeration_within
    (g : globals) (yaml_data : YamlConfig.t) (config : ProcessedConfig.t)
    (mirror_info : MirrorData.t) (mirror_url : string)
    (Hprocessed : process_main_config yaml_data = Ret (Some config, None)) :
  Forall (λ c, ∃ version repo_data arch,
            version ∈ map py_str (YamlConfig.versions yaml_data)
            ∧ arch ∈ YamlConfig.arches yaml_data
            ∧ repo_data ∈ MainConfig.repos (ProcessedConfig.main config)
            ∧ c.1 = url_for_check mirror_url version
                      (repo_path_for repo_data arch))
    (urls_for_checking g (ProcessedConfig.main config) mirror_info mirror_url).
Proof.
  unfold process_main_config in Hprocessed.
  destruct (process_repos yaml_data (YamlConfig.repos yaml_data))
    as [repos_data|err] eqn:E.
  2: { by destruct (isinstance err (OtherClass "ValidationError")). }
  injection Hprocessed as <-.
  apply process_repos_returns in E as [_ Hwithin].
  eapply Forall_impl; [apply urls_for_checking_written|].
  intros c (version & repo_data & arch & Hel & ->).
  destruct Hel as [Hv _ Hr _ Ha _]. cbn in Hv, Hr, Ha.
  exists version, repo_data, arch. split_and!; [done| |done|done].
  rewrite Forall_forall in Hwithin. destruct (Hwithin _ Hr) as [Harches _].
  unfold _get_arches_for_version in Ha.
  destruct (RepoData.arches repo_data) as [|a l]; [done|]. by apply Harches.
Qed.

Lemma processed_config_enumeration_within_witness :
  ∃ config,
    process_main_config (yaml_config [yaml_baseos; yaml_nfv])
    = Ret (Some config, None)
    ∧ Forall (λ c, ∃ version repo_data arch,
                version ∈ map py_str
                            (YamlConfig.versions
                               (yaml_config [yaml_baseos; yaml_nfv]))
                ∧ arch ∈ YamlConfig.arches (yaml_config [yaml_baseos; yaml_nfv])
                ∧ repo_data ∈ MainConfig.repos (ProcessedConfig.main config)
                ∧ c.1 = url_for_check "https://example.org/almalinux" version
                          (repo_path_for repo_data arch))
        (urls_for_checking utils_globals (ProcessedConfig.main config)
           example_mirror "https://example.org/almalinux").
Proof.
  eexists. split; [vm_compute; reflexivity|].
  eapply (processed_config_enumeration_within utils_globals
            (yaml_config [yaml_baseos; yaml_nfv])).
  vm_compute. reflexivity.
Defined.

Example processed_enumeration :
  match process_main_config (yaml_config [yaml_baseos; yaml_nfv]) with
  | Ret (Some config, _) =>
      keys (urls_for_checking utils_globals (ProcessedConfig.main config)
              example_mirror "https://example.org/almalinux")
  | _ => []
  end
  = ["https://example.org/almalinux/9/BaseOS/x86_64/os/repodata/repomd.xml";
     "https://example.org/almalinux/9/BaseOS/aarch64/os/repodata/repomd.xml";
     "https://example.org/almalinux/9/NFV/x86_64/os/repodata/repomd.xml";
     "https://example.org/almalinux/9-beta/BaseOS/x86_64/os/repodata/repomd.xml";
     "https://example.org/almalinux/9-beta/BaseOS/aarch64/os/repodata/repomd.xml"].
Proof. vm_compute. reflexivity. Qed.

(** ** The shape of the URLs *)

#[local] Transparent UrlParse.urljoin str_replace.

Import UrlParse.

Lemma char_in_app (c : ascii) (a b : string) :
  char_in c (a +:+ b) = char_in c a || char_in c b.
Proof.
  induction a as [|d a IH]; [done|]. rewrite str_app_cons. cbn.
  by destruct (Ascii.eqb c d).
Qed.

Lemma break_at_absent (c : ascii) (s : string) :
  char_in c s = false → break_at c s = None.
Proof.
  induction s as [|d s IH]; [done|]. cbn. rewrite (Ascii.eqb_sym d c).
  destruct (Ascii.eqb c d); [done|]. intros H. by rewrite IH.
Qed.

Lemma break_at_found (c : ascii) (s r : string) :
  char_in c s = false → break_at c (s +:+ String c r) = Some (s, r).
Proof.
  induction s as [|d s IH].
  - intros _. rewrite str_app_nil_l. cbn. by rewrite Ascii.eqb_refl.
  - rewrite str_app_cons. cbn. rewrite (Ascii.eqb_sym d c).
    destruct (Ascii.eqb c d); [done|]. intros H. by rewrite IH.
Qed.

Lemma char_in_eqb (c d : ascii) (s : string) :
  char_in c s = false → char_in d s = true → Ascii.eqb c d = false.
Proof.
  intros Hc Hd. destruct (Ascii.eqb c d) eqn:E; [|done].
  apply Ascii.eqb_eq in E as ->. congruence.
Qed.

(** A special character is none of a plain string. *)
Lemma plain_no_special (d : ascii) (s : string) :
  char_in d ":/?#;[]" = true →
  all_chars plain_char s = true → char_in d s = false.
Proof.
  intros Hd. induction s as [|c s IH]; [done|]. cbn.
  intros [Hc Hs]%andb_true_iff. rewrite (IH Hs).
  unfold plain_char in Hc. apply andb_true_iff in Hc as [_ Hc].
  apply negb_true_iff in Hc.
  rewrite Ascii.eqb_sym. by rewrite (char_in_eqb c d ":/?#;[]").
Qed.

Lemma span_plain (host rest : string) :
  all_chars plain_char host = true →
  span (λ c, negb (char_in c "/?#")) (host +:+ String "/" rest)
  = (host, String "/" rest).
Proof.
  induction host as [|c host IH].
  - intros _. by rewrite str_app_nil_l.
  - cbn [all_chars]. intros [Hc Hs]%andb_true_iff.
    rewrite str_app_cons. cbn [span]. rewrite (IH Hs).
    unfold plain_char in Hc. apply andb_true_iff in Hc as [_ Hc].
    apply negb_true_iff in Hc.
    assert (Hn : char_in c "/?#" = false).
    { cbn [char_in].
      rewrite (char_in_eqb c "/" ":/?#;[]") by done.
      rewrite (char_in_eqb c "?" ":/?#;[]") by done.
      by rewrite (char_in_eqb c "#" ":/?#;[]") by done. }
    by rewrite Hn.
Qed.

Lemma str_split_absent (s : string) :
  char_in "/" s = false → str_split "/" s = [s].
Proof.
  induction s as [|d s IH]; [done|]. cbn [char_in str_split].
  rewrite (Ascii.eqb_sym d "/").
  destruct (Ascii.eqb "/" d); [done|]. intros H. by rewrite IH.
Qed.

Lemma str_split_app (s r : string) :
  char_in "/" s = false →
  str_split "/" (s +:+ String "/" r) = s :: str_split "/" r.
Proof.
  induction s as [|d s IH].
  - intros _. rewrite str_app_nil_l. done.
  - rewrite str_app_cons. cbn [char_in str_split].
    rewrite (Ascii.eqb_sym d "/").
    destruct (Ascii.eqb "/" d); [done|]. intros H. by rewrite IH.
Qed.

Lemma str_split_concat (x : string) (l : list string) :
  Forall (λ s, char_in "/" s = false) (x :: l) →
  str_split "/" (String.concat "/" (x :: l)) = x :: l.
Proof.
  revert x. induction l as [|y l IH]; intros x Hall.
  - cbn. apply str_split_absent. by inversion Hall.
  - inversion Hall as [|? ? Hx Hrest]; subst.
    change (String.concat "/" (x :: y :: l))
      with (x +:+ String "/" (String.concat "/" (y :: l))).
    rewrite str_split_app by done. by rewrite IH.
Qed.

Lemma char_in_concat (c : ascii) (x : string) (l : list string) :
  char_in c "/" = false →
  Forall (λ s, char_in c s = false) (x :: l) →
  char_in c (String.concat "/" (x :: l)) = false.
Proof.
  intros Hc. revert x. induction l as [|y l IH]; intros x Hall.
  - by inversion Hall.
  - inversion Hall as [|? ? Hx Hrest]; subst.
    change (String.concat "/" (x :: y :: l))
      with (x +:+ "/" +:+ String.concat "/" (y :: l)).
    by rewrite !char_in_app, Hx, Hc, IH.
Qed.

Lemma concat_snoc (x : string) (l : list string) :
  String.concat "/" (x :: l) +:+ "/"
  = String.concat "/" ((x :: l) ++ [EmptyString]).
Proof.
  revert x. induction l as [|y l IH]; intros x.
  - cbn. by rewrite str_app_nil_r.
  - change (String.concat "/" (x :: y :: l))
      with (x +:+ "/" +:+ String.concat "/" (y :: l)).
    change (String.concat "/" ((x :: y :: l) ++ [EmptyString]))
      with (x +:+ "/" +:+ String.concat "/" ((y :: l) ++ [EmptyString])).
    by rewrite <- IH, !str_app_assoc.
Qed.

Lemma concat_app (x : string) (l1 : list string) (y : string) (l2 : list string) :
  String.concat "/" ((x :: l1) ++ y :: l2)
  = String.concat "/" (x :: l1) +:+ "/" +:+ String.concat "/" (y :: l2).
Proof.
  revert x. induction l1 as [|z l1 IH]; intros x; [done|].
  change (String.concat "/" ((x :: z :: l1) ++ y :: l2))
    with (x +:+ "/" +:+ String.concat "/" ((z :: l1) ++ y :: l2)).
  change (String.concat "/" (x :: z :: l1))
    with (x +:+ "/" +:+ String.concat "/" (z :: l1)).
  by rewrite IH, !str_app_assoc.
Qed.

Lemma resolve_plain (resolved segments : list string) :
  Forall (λ s, s ≠ "." ∧ s ≠ "..") segments →
  foldl (λ resolved_path seg,
           if String.eqb seg ".."
           then take (List.length resolved_path - 1) resolved_path
           else if String.eqb seg "." then resolved_path
           else resolved_path ++ [seg]) resolved segments
  = resolved ++ segments.
Proof.
  intros Hall. revert resolved.
  induction Hall as [|seg segments [Hdot Hdots] _ IH]; intros resolved; cbn.
  - by rewrite app_nil_r.
  - apply String.eqb_neq in Hdot, Hdots. rewrite Hdot, Hdots.
    by rewrite IH, <- app_assoc.
Qed.

Lemma nonempty_app_l (a b : string) :
  nonempty a = true → nonempty (a +:+ b) = true.
Proof. by destruct a. Qed.

Lemma plain_segment_chars (d : ascii) (s : string) :
  char_in d ":/?#;[]" = true → plain_segment s → char_in d s = false.
Proof. intros Hd (_ & Hs & _). by apply plain_no_special. Qed.

(** A plain segment begins with a character that is no slash. *)
Lemma plain_segment_head (s : string) :
  plain_segment s → ∃ c r, s = String c r ∧ Ascii.eqb "/" c = false.
Proof.
  intros (Hne & Hs & _). destruct s as [|c r]; [done|].
  exists c, r. split; [done|].
  pose proof (plain_no_special "/" (String c r) eq_refl Hs) as H.
  cbn [char_in] in H. by destruct (Ascii.eqb "/" c).
Qed.

Lemma concat_head (c : ascii) (r : string) (l : list string) :
  String.concat "/" (String c r :: l) = String c (String.concat "/" (r :: l)).
Proof. by destruct l. Qed.

Section Parse.

Variables (scheme host : string).
Hypothesis Hscheme : scheme = "http" ∨ scheme = "https".
Hypothesis Hhost : plain_host host.

Lemma scheme_facts :
  nonempty scheme = true
  ∧ (∀ rest, break_at ":" (scheme +:+ String ":" rest) = Some (scheme, rest))
  ∧ (∃ c0 pre, scheme = String c0 pre
       ∧ is_alpha c0 && all_chars is_scheme_char (String c0 pre) = true
       ∧ lower (String c0 pre) = scheme)
  ∧ bool_decide (scheme ∈ uses_relative) = true
  ∧ bool_decide (scheme ∈ uses_netloc) = true
  ∧ bool_decide (scheme ∈ uses_params) = true.
Proof.
  destruct Hscheme as [-> | ->]; split_and!; try done;
    try (intros rest; by apply break_at_found);
    by eexists _, _.
Qed.

Lemma urlsplit_absolute (rest default_scheme : string) :
  char_in "#" rest = false → char_in "?" rest = false →
  urlsplit (scheme +:+ "://" +:+ host +:+ String "/" rest) default_scheme
  = {| sr_scheme := scheme; sr_netloc := host; sr_path := String "/" rest;
       sr_query := EmptyString; sr_fragment := EmptyString |}.
Proof.
  intros Hfrag Hquery.
  destruct scheme_facts as (_ & Hbreak & (c0 & pre & Hs & Hchars & Hlower) & _).
  destruct Hhost as [_ Hhost_chars].
  unfold urlsplit.
  change (scheme +:+ "://" +:+ host +:+ String "/" rest)
    with (scheme +:+ String ":" ("//" +:+ host +:+ String "/" rest)).
  rewrite Hbreak. rewrite Hs at 1. rewrite Hchars, Hlower.
  rewrite startswith_app.
  change (drop_chars 2 ("//" +:+ host +:+ String "/" rest))
    with (host +:+ String "/" rest).
  unfold _splitnetloc. rewrite span_plain by done.
  rewrite !break_at_absent; [done|..].
  - cbn [char_in]. by rewrite Hquery.
  - cbn [char_in]. by rewrite Hfrag.
Qed.

Lemma urlparse_absolute (rest default_scheme : string) :
  char_in "#" rest = false → char_in "?" rest = false →
  char_in ";" rest = false →
  urlparse (scheme +:+ "://" +:+ host +:+ String "/" rest) default_scheme
  = {| pr_scheme := scheme; pr_netloc := host; pr_path := String "/" rest;
       pr_params := EmptyString; pr_query := EmptyString;
       pr_fragment := EmptyString |}.
Proof.
  intros Hfrag Hquery Hparams. unfold urlparse.
  rewrite urlsplit_absolute by done. cbn [sr_scheme sr_path sr_netloc
                                          sr_query sr_fragment].
  assert (char_in ";" (String "/" rest) = false) as ->.
  { cbn [char_in]. by rewrite Hparams. }
  by rewrite andb_false_r.
Qed.

(** A relative reference made of plain segments. *)
Lemma urlparse_relative (seg : string) (segs : list string) :
  Forall plain_segment (seg :: segs) →
  urlparse (String.concat "/" (seg :: segs)) scheme
  = {| pr_scheme := scheme; pr_netloc := EmptyString;
       pr_path := String.concat "/" (seg :: segs);
       pr_params := EmptyString; pr_query := EmptyString;
       pr_fragment := EmptyString |}.
Proof.
  intros Hplain.
  assert (Hno : ∀ d, char_in d ":/?#;[]" = true → char_in d "/" = false →
                     char_in d (String.concat "/" (seg :: segs)) = false).
  { intros d Hd Hslash. apply char_in_concat; [done|].
    eapply Forall_impl; [exact Hplain|]. intros s Hs.
    by apply plain_segment_chars. }
  destruct (plain_segment_head seg) as (c & r & -> & Hc);
    [by inversion Hplain|].
  unfold urlparse, urlsplit.
  rewrite (break_at_absent ":") by (by apply Hno).
  rewrite concat_head.
  assert (startswith "//" (String c (String.concat "/" (r :: segs))) = false)
    as ->.
  { cbn [startswith]. by rewrite Hc. }
  rewrite <- concat_head.
  rewrite (break_at_absent "#") by (by apply Hno).
  rewrite (break_at_absent "?") by (by apply Hno).
  cbn [sr_scheme sr_path sr_netloc sr_query sr_fragment].
  rewrite (Hno ";"%char) by done. by rewrite andb_false_r.
Qed.

End Parse.

Lemma drop_inner_empty_plain (first : string) (mid : list string) (lst : string) :
  drop_inner_empty (first :: mid ++ [lst])
  = first :: List.filter nonempty mid ++ [lst].
Proof.
  unfold drop_inner_empty.
  destruct (mid ++ [lst]) as [|x rest] eqn:E; [by destruct mid|].
  rewrite <- E. rewrite List.last_last.
  rewrite length_app. cbn [length].
  replace (length mid + 1 - 1) with (length mid) by lia.
  by rewrite take_app_length.
Qed.

Lemma filter_nonempty_plain (l : list string) :
  Forall plain_segment l → List.filter nonempty l = l.
Proof.
  induction 1 as [|s l (Hs & _) _ IH]; [done|]. cbn.
  destruct s; [done|]. cbn. by rewrite IH.
Qed.

Section Join.

Variables (scheme host : string).
Hypothesis Hscheme : scheme = "http" ∨ scheme = "https".
Hypothesis Hhost : plain_host host.

Lemma urlunparse_plain (rest : string) :
  urlunparse {| pr_scheme := scheme; pr_netloc := host;
                pr_path := String "/" rest; pr_params := EmptyString;
                pr_query := EmptyString; pr_fragment := EmptyString |}
  = scheme +:+ "://" +:+ host +:+ String "/" rest.
Proof.
  destruct (scheme_facts scheme Hscheme) as (Hne & _).
  destruct Hhost as [Hhne _].
  unfold urlunparse, urlunsplit.
  cbn [pr_scheme pr_netloc pr_path pr_params pr_query pr_fragment
       sr_scheme sr_netloc sr_path sr_query sr_fragment nonempty].
  rewrite Hne. destruct host as [|h hs]; [done|]. done.
Qed.

(** One [urljoin]: a directory and a relative path of plain segments. *)
Lemma urljoin_plain (dirs : list string) (seg : string) (segs : list string) :
  Forall plain_segment dirs →
  Forall plain_segment (seg :: segs) →
  urljoin (scheme +:+ "://" +:+ host
           +:+ String.concat "/" (EmptyString :: dirs ++ [EmptyString]))
    (String.concat "/" (seg :: segs))
  = scheme +:+ "://" +:+ host
    +:+ String.concat "/" (EmptyString :: dirs ++ seg :: segs).
Proof.
  intros Hdirs Hsegs.
  destruct (scheme_facts scheme Hscheme)
    as (Hne & _ & _ & Hrel & Hnet & _).
  assert (Hopen : ∀ d, char_in d ":/?#;[]" = true → char_in d "/" = false →
            char_in d (String.concat "/" (dirs ++ [EmptyString])) = false).
  { intros d Hd Hslash.
    destruct (dirs ++ [EmptyString]) as [|x l] eqn:E; [done|].
    apply char_in_concat; [done|]. rewrite <- E. apply Forall_app. split.
    - eapply Forall_impl; [exact Hdirs|]. intros s Hs.
      by apply plain_segment_chars.
    - by repeat constructor. }
  assert (Hbase : String.concat "/" (EmptyString :: dirs ++ [EmptyString])
                  = String "/" (String.concat "/" (dirs ++ [EmptyString]))).
  { by destruct dirs. }
  destruct (plain_segment_head seg) as (c & r & Hseg & Hc);
    [by inversion Hsegs|].
  unfold urljoin.
  rewrite nonempty_app_l by done. cbn [negb].
  assert (nonempty (String.concat "/" (seg :: segs)) = true) as ->.
  { by rewrite Hseg, concat_head. }
  cbn [negb].
  rewrite Hbase.
  rewrite (urlparse_absolute scheme host Hscheme Hhost) by (by apply Hopen).
  cbv zeta.
  cbn [pr_scheme pr_netloc pr_path pr_params pr_query pr_fragment].
  rewrite (urlparse_relative scheme seg segs Hsegs).
  cbn [pr_scheme pr_netloc pr_path pr_params pr_query pr_fragment].
  rewrite String.eqb_refl, Hrel, Hnet. cbn [negb orb andb nonempty].
  assert (nonempty (String.concat "/" (seg :: segs)) = true) as ->.
  { by rewrite Hseg, concat_head. }
  cbn [negb andb].
  rewrite <- Hbase.
  change (EmptyString :: dirs ++ [EmptyString])
    with ((EmptyString :: dirs) ++ [EmptyString]).
  assert (Hsplit_base :
            str_split "/" (String.concat "/" ((EmptyString :: dirs)
                                              ++ [EmptyString]))
            = (EmptyString :: dirs) ++ [EmptyString]).
  { apply str_split_concat. constructor; [done|]. apply Forall_app. split.
    - eapply Forall_impl; [exact Hdirs|]. intros s Hs.
      by apply plain_segment_chars.
    - by repeat constructor. }
  rewrite Hsplit_base. rewrite List.last_last. cbn [nonempty].
  assert (startswith "/" (String.concat "/" (seg :: segs)) = false) as ->.
  { rewrite Hseg, concat_head. cbn [startswith]. by rewrite Hc. }
  rewrite str_split_concat.
  2: { eapply Forall_impl; [exact Hsegs|]. intros s Hs.
       by apply plain_segment_chars. }
  destruct (exists_last (l := seg :: segs)) as (init & lst & Hlast); [done|].
  assert (Hinit : Forall plain_segment init ∧ plain_segment lst).
  { rewrite Hlast in Hsegs. apply Forall_app in Hsegs as [? Hl].
    split; [done|]. by inversion Hl. }
  destruct Hinit as [Hinit Hlst].
  assert (Hsegments :
            drop_inner_empty
              (((EmptyString :: dirs) ++ [EmptyString]) ++ seg :: segs)
            = EmptyString :: dirs ++ seg :: segs).
  { rewrite Hlast.
    replace (((EmptyString :: dirs) ++ [EmptyString]) ++ init ++ [lst])
      with (EmptyString :: (dirs ++ [EmptyString] ++ init) ++ [lst])
      by (by rewrite <- !app_assoc).
    rewrite drop_inner_empty_plain, !List.filter_app.
    rewrite (filter_nonempty_plain dirs), (filter_nonempty_plain init) by done.
    cbn [List.filter nonempty].
    by rewrite <- !app_assoc. }
  rewrite Hsegments.
  assert (Hdots : Forall (λ s, s ≠ "." ∧ s ≠ "..")
                    (EmptyString :: dirs ++ seg :: segs)).
  { constructor; [done|]. apply Forall_app. split.
    - eapply Forall_impl; [exact Hdirs|]. by intros s (_ & _ & ? & ?).
    - eapply Forall_impl; [exact Hsegs|]. by intros s (_ & _ & ? & ?). }
  assert (List.last (EmptyString :: dirs ++ seg :: segs) EmptyString = lst)
    as ->.
  { rewrite Hlast.
    replace (EmptyString :: dirs ++ init ++ [lst])
      with ((EmptyString :: dirs ++ init) ++ [lst])
      by (cbn [app]; by rewrite <- app_assoc).
    apply List.last_last. }
  rewrite bool_decide_eq_false_2.
  2: { destruct Hlst as (_ & _ & Hdot & Hdotdot).
       intros [->|Hin]%elem_of_cons; [done|].
       by apply list_elem_of_singleton in Hin. }
  unfold resolve_segments. rewrite resolve_plain by done. cbn [app].
  assert (Hpath : String.concat "/" (EmptyString :: dirs ++ seg :: segs)
                  = String "/" (String.concat "/" (dirs ++ seg :: segs))).
  { by destruct dirs. }
  rewrite Hpath. cbn [nonempty].
  by rewrite (urlunparse_plain).
Qed.

End Join.

Section Rooted.

Variables (scheme host : string).
Hypothesis Hscheme : scheme = "http" ∨ scheme = "https".
Hypothesis Hhost : plain_host host.

(** A reference that begins with one slash. *)
Lemma urlparse_rooted (seg : string) (segs : list string) :
  Forall plain_segment (seg :: segs) →
  urlparse (String.concat "/" (EmptyString :: seg :: segs)) scheme
  = {| pr_scheme := scheme; pr_netloc := EmptyString;
       pr_path := String.concat "/" (EmptyString :: seg :: segs);
       pr_params := EmptyString; pr_query := EmptyString;
       pr_fragment := EmptyString |}.
Proof.
  intros Hplain.
  assert (Hno : ∀ d, char_in d ":/?#;[]" = true → char_in d "/" = false →
                     char_in d (String.concat "/" (EmptyString :: seg :: segs))
                     = false).
  { intros d Hd Hslash. apply char_in_concat; [done|].
    constructor; [done|].
    eapply Forall_impl; [exact Hplain|]. intros s Hs.
    by apply plain_segment_chars. }
  destruct (plain_segment_head seg) as (c & r & Hseg & Hc);
    [by inversion Hplain|].
  destruct (scheme_facts scheme Hscheme) as (_ & _ & _ & _ & _ & Hpar).
  unfold urlparse, urlsplit.
  rewrite (break_at_absent ":") by (by apply Hno).
  assert (startswith "//" (String.concat "/" (EmptyString :: seg :: segs))
          = false) as ->.
  { change (String.concat "/" (EmptyString :: seg :: segs))
      with (String "/" (String.concat "/" (seg :: segs))).
    rewrite Hseg, concat_head. cbn [startswith].
    rewrite Ascii.eqb_refl. by rewrite Hc. }
  rewrite (break_at_absent "#") by (by apply Hno).
  rewrite (break_at_absent "?") by (by apply Hno).
  cbn [sr_scheme sr_path sr_netloc sr_query sr_fragment].
  rewrite (Hno ";"%char) by done. by rewrite andb_false_r.
Qed.

(** One [urljoin] with a reference that begins with a slash: the path of
    the base is dropped. *)
Lemma urljoin_rooted (dirs : list string) (seg : string) (segs : list string) :
  Forall plain_segment dirs →
  Forall plain_segment (seg :: segs) →
  urljoin (scheme +:+ "://" +:+ host
           +:+ String.concat "/" (EmptyString :: dirs ++ [EmptyString]))
    (String.concat "/" (EmptyString :: seg :: segs))
  = scheme +:+ "://" +:+ host
    +:+ String.concat "/" (EmptyString :: seg :: segs).
Proof.
  intros Hdirs Hsegs.
  destruct (scheme_facts scheme Hscheme)
    as (Hne & _ & _ & Hrel & Hnet & _).
  assert (Hopen : ∀ d, char_in d ":/?#;[]" = true → char_in d "/" = false →
            char_in d (String.concat "/" (dirs ++ [EmptyString])) = false).
  { intros d Hd Hslash.
    destruct (dirs ++ [EmptyString]) as [|x l] eqn:E; [done|].
    apply char_in_concat; [done|]. rewrite <- E. apply Forall_app. split.
    - eapply Forall_impl; [exact Hdirs|]. intros s Hs.
      by apply plain_segment_chars.
    - by repeat constructor. }
  assert (Hbase : String.concat "/" (EmptyString :: dirs ++ [EmptyString])
                  = String "/" (String.concat "/" (dirs ++ [EmptyString]))).
  { by destruct dirs. }
  assert (Hurl : String.concat "/" (EmptyString :: seg :: segs)
                 = String "/" (String.concat "/" (seg :: segs))) by done.
  unfold urljoin.
  rewrite nonempty_app_l by done. cbn [negb].
  assert (nonempty (String.concat "/" (EmptyString :: seg :: segs)) = true)
    as -> by done.
  cbn [negb].
  rewrite Hbase.
  rewrite (urlparse_absolute scheme host Hscheme Hhost) by (by apply Hopen).
  cbv zeta.
  cbn [pr_scheme pr_netloc pr_path pr_params pr_query pr_fragment].
  rewrite (urlparse_rooted seg segs Hsegs).
  cbn [pr_scheme pr_netloc pr_path pr_params pr_query pr_fragment].
  rewrite String.eqb_refl, Hrel, Hnet. cbn [negb orb andb nonempty].
  assert (nonempty (String.concat "/" (EmptyString :: seg :: segs)) = true)
    as -> by done.
  cbn [negb andb].
  assert (startswith "/" (String.concat "/" (EmptyString :: seg :: segs))
          = true) as -> by done.
  rewrite (str_split_concat EmptyString (seg :: segs)).
  2: { constructor; [done|]. eapply Forall_impl; [exact Hsegs|]. intros s Hs.
       by apply plain_segment_chars. }
  destruct (exists_last (l := seg :: segs)) as (init & lst & Hlast); [done|].
  assert (Hlst : plain_segment lst).
  { rewrite Hlast in Hsegs. apply Forall_app in Hsegs as [? Hl].
    by inversion Hl. }
  assert (Hdots : Forall (λ s, s ≠ "." ∧ s ≠ "..")
                    (EmptyString :: seg :: segs)).
  { constructor; [done|].
    eapply Forall_impl; [exact Hsegs|]. by intros s (_ & _ & ? & ?). }
  assert (List.last (EmptyString :: seg :: segs) EmptyString = lst) as ->.
  { rewrite Hlast.
    change (EmptyString :: init ++ [lst])
      with ((EmptyString :: init) ++ [lst]).
    apply List.last_last. }
  rewrite bool_decide_eq_false_2.
  2: { destruct Hlst as (_ & _ & Hdot & Hdotdot).
       intros [->|Hin]%elem_of_cons; [done|].
       by apply list_elem_of_singleton in Hin. }
  unfold resolve_segments. rewrite resolve_plain by done. cbn [app].
  rewrite Hurl. cbn [nonempty].
  by rewrite (urlunparse_plain scheme host Hscheme Hhost).
Qed.

End Rooted.

Lemma repomd_plain : Forall plain_segment ["repodata"; "repomd.xml"].
Proof. repeat constructor; done. Qed.

Lemma plain_url_slash (scheme host : string) (l : list string) :
  plain_url scheme host l +:+ "/"
  = scheme +:+ "://" +:+ host
    +:+ String.concat "/" (EmptyString :: l ++ [EmptyString]).
Proof.
  unfold plain_url. rewrite !str_app_assoc. do 3 f_equal.
  apply (concat_snoc EmptyString l).
Qed.

(** The three calls of [urljoin] on plain parts. *)
Lemma url_for_check_segments
    (scheme host : string) (dirs : list string) (version seg : string)
    (segs : list string)
    (Hscheme : scheme = "http" ∨ scheme = "https")
    (Hhost : plain_host host)
    (Hdirs : Forall plain_segment dirs)
    (Hversion : plain_segment version)
    (Hsegs : Forall plain_segment (seg :: segs)) :
  url_for_check (plain_url scheme host dirs) version
    (String.concat "/" (seg :: segs))
  = plain_url scheme host dirs +:+ "/" +:+ version +:+ "/"
    +:+ String.concat "/" (seg :: segs) +:+ "/repodata/repomd.xml".
Proof.
  unfold url_for_check.
  rewrite plain_url_slash.
  change version with (String.concat "/" [version]) at 1.
  rewrite (urljoin_plain scheme host Hscheme Hhost dirs version [])
    by (done || by constructor).
  fold (plain_url scheme host (dirs ++ [version])).
  rewrite plain_url_slash.
  rewrite (urljoin_plain scheme host Hscheme Hhost (dirs ++ [version]) seg segs);
    [|apply Forall_app; split; [done|by constructor]|done].
  fold (plain_url scheme host ((dirs ++ [version]) ++ seg :: segs)).
  rewrite plain_url_slash.
  change "repodata/repomd.xml"
    with (String.concat "/" ["repodata"; "repomd.xml"]).
  rewrite (urljoin_plain scheme host Hscheme Hhost
             ((dirs ++ [version]) ++ seg :: segs) "repodata" ["repomd.xml"]);
    [|apply Forall_app; split;
       [apply Forall_app; split; [done|by constructor]|done]
     |apply repomd_plain].
  unfold plain_url. rewrite !str_app_assoc. do 3 f_equal.
  change (EmptyString :: ((dirs ++ [version]) ++ seg :: segs)
                         ++ ["repodata"; "repomd.xml"])
    with ((EmptyString :: (dirs ++ [version]) ++ seg :: segs)
          ++ ["repodata"; "repomd.xml"]).
  rewrite concat_app.
  change (EmptyString :: (dirs ++ [version]) ++ seg :: segs)
    with ((EmptyString :: dirs ++ [version]) ++ seg :: segs).
  rewrite concat_app.
  change (EmptyString :: dirs ++ [version])
    with ((EmptyString :: dirs) ++ [version]).
  rewrite concat_app.
  by rewrite !str_app_assoc.
Qed.

(** X21. The URL that is probed is the plain concatenation
    [base/version/path/repodata/repomd.xml] when the base URL is
    [http://host/d1/.../dn] or [https://host/d1/.../dn] and the host, the
    directories, the version and the segments of the repo path are
    plain: not empty, of printable characters other than [:/?#;[]], and
    neither [.] nor [..]. *)
Theorem url_for_check_plain
    (scheme host : string) (dirs : list string) (version seg : string)
    (segs : list string)
    (Hscheme : scheme = "http" ∨ scheme = "https")
    (Hhost : plain_host host)
    (Hdirs : Forall plain_segment dirs)
    (Hversion : plain_segment version)
    (Hsegs : Forall plain_segment (seg :: segs)) :
  url_for_check (plain_url scheme host dirs) version
    (String.concat "/" (seg :: segs))
  = plain_url scheme host dirs +:+ "/" +:+ version +:+ "/"
    +:+ String.concat "/" (seg :: segs) +:+ "/repodata/repomd.xml".
Proof. by apply url_for_check_segments. Qed.

Lemma example_org_plain : plain_host "example.org".
Proof. split; [discriminate|reflexivity]. Defined.

Lemma plain_sample (s : string) :
  s ∈ ["almalinux"; "8"; "BaseOS"; "x86_64"; "aarch64"; "os"; "pub"] →
  plain_segment s.
Proof.
  intros Hin. repeat (apply elem_of_cons in Hin as [->|Hin];
                      [split_and!; (discriminate || reflexivity)|]).
  by apply not_elem_of_nil in Hin.
Defined.

Lemma url_for_check_plain_witness :
  url_for_check (plain_url "https" "example.org" ["almalinux"]) "8"
    (String.concat "/" ["BaseOS"; "x86_64"; "os"])
  = plain_url "https" "example.org" ["almalinux"] +:+ "/" +:+ "8" +:+ "/"
    +:+ String.concat "/" ["BaseOS"; "x86_64"; "os"]
    +:+ "/repodata/repomd.xml".
Proof.
  apply (url_for_check_plain "https" "example.org" ["almalinux"] "8"
           "BaseOS" ["x86_64"; "os"]).
  - by right.
  - apply example_org_plain.
  - repeat constructor; apply plain_sample; set_solver.
  - apply plain_sample; set_solver.
  - repeat constructor; apply plain_sample; set_solver.
Defined.

(** X22. A repo path that begins with a slash takes the place of the
    path of the mirror and of the version: the URL that is probed is
    [scheme://host/path/repodata/repomd.xml], the same for every version
    and for every directory of the base URL. *)
Theorem url_for_check_rooted
    (scheme host : string) (dirs : list string) (version seg : string)
    (segs : list string)
    (Hscheme : scheme = "http" ∨ scheme = "https")
    (Hhost : plain_host host)
    (Hdirs : Forall plain_segment dirs)
    (Hversion : plain_segment version)
    (Hsegs : Forall plain_segment (seg :: segs)) :
  url_for_check (plain_url scheme host dirs) version
    ("/" +:+ String.concat "/" (seg :: segs))
  = scheme +:+ "://" +:+ host +:+ "/" +:+ String.concat "/" (seg :: segs)
    +:+ "/repodata/repomd.xml".
Proof.
  unfold url_for_check.
  rewrite plain_url_slash.
  change version with (String.concat "/" [version]) at 1.
  rewrite (urljoin_plain scheme host Hscheme Hhost dirs version [])
    by (done || by constructor).
  fold (plain_url scheme host (dirs ++ [version])).
  rewrite plain_url_slash.
  change ("/" +:+ String.concat "/" (seg :: segs))
    with (String.concat "/" (EmptyString :: seg :: segs)).
  rewrite (urljoin_rooted scheme host Hscheme Hhost (dirs ++ [version]) seg segs);
    [|apply Forall_app; split; [done|by constructor]|done].
  fold (plain_url scheme host (seg :: segs)).
  rewrite plain_url_slash.
  change "repodata/repomd.xml"
    with (String.concat "/" ["repodata"; "repomd.xml"]).
  rewrite (urljoin_plain scheme host Hscheme Hhost
             (seg :: segs) "repodata" ["repomd.xml"]);
    [|done|apply repomd_plain].
  do 3 f_equal.
  change (EmptyString :: (seg :: segs) ++ ["repodata"; "repomd.xml"])
    with ((EmptyString :: seg :: segs) ++ ["repodata"; "repomd.xml"]).
  rewrite concat_app.
  change (String.concat "/" (EmptyString :: seg :: segs))
    with ("/" +:+ String.concat "/" (seg :: segs)).
  by rewrite !str_app_assoc.
Qed.

Lemma url_for_check_rooted_witness :
  url_for_check (plain_url "https" "example.org" ["almalinux"]) "8"
    ("/" +:+ String.concat "/" ["pub"; "os"])
  = "https" +:+ "://" +:+ "example.org" +:+ "/"
    +:+ String.concat "/" ["pub"; "os"] +:+ "/repodata/repomd.xml".
Proof.
  apply (url_for_check_rooted "https" "example.org" ["almalinux"] "8"
           "pub" ["os"]).
  - by right.
  - apply example_org_plain.
  - repeat constructor; apply plain_sample; set_solver.
  - apply plain_sample; set_solver.
  - repeat constructor; apply plain_sample; set_solver.
Defined.

(** ** The substitution of the arch, segment by segment *)

Section Replace_segments.

(** The replaced string [String c0 old'] has no slash and its first
    character does not come back in it. *)
Variables (c0 : ascii) (old' new : string).
Hypothesis c0_fresh : char_in c0 old' = false.
Hypothesis no_slash : char_in "/" (String c0 old') = false.

Let old := String c0 old'.

Lemma char_in_app_l (c : ascii) (a b : string) :
  char_in c a = true → char_in c (a +:+ b) = true.
Proof.
  induction a as [|d a IH]; [done|]. rewrite str_app_cons. cbn [char_in].
  destruct (Ascii.eqb c d); [done|]. apply IH.
Qed.

Lemma char_in_app_r (c : ascii) (a b : string) :
  char_in c b = true → char_in c (a +:+ b) = true.
Proof.
  intros Hb. induction a as [|d a IH]; [done|]. rewrite str_app_cons.
  cbn [char_in]. by destruct (Ascii.eqb c d).
Qed.

(** No occurrence of [old] begins in a segment that is free of it and
    goes on over the slash behind the segment. *)
Lemma no_crossing (c : ascii) (seg rest : string) :
  ¬ occurs old (String c seg) →
  startswith old (String c seg +:+ String "/" rest) = false.
Proof.
  intros Hfree. destruct (startswith old _) eqn:E; [|done]. exfalso.
  apply startswith_app_cases in E as [[r Hr]|[q [Hq Hpre]]].
  - apply Hfree. exists EmptyString, r. by rewrite Hr.
  - destruct q as [|d q].
    + apply Hfree. exists EmptyString, EmptyString.
      rewrite str_app_nil_r in Hq. by rewrite str_app_nil_l, str_app_nil_r, Hq.
    + cbn [startswith] in Hpre.
      destruct (Ascii.eqb d "/") eqn:Ed; [|done].
      apply Ascii.eqb_eq in Ed as ->.
      assert (char_in "/" old = true) as Hin.
      { rewrite Hq. apply char_in_app_r. cbn [char_in].
        by rewrite Ascii.eqb_refl. }
      unfold old in Hin. congruence.
Qed.

Lemma scan_segment (seg rest : string) :
  ¬ occurs old seg →
  replace_scan old new 0 (seg +:+ String "/" rest)
  = seg +:+ String "/" (replace_scan old new 0 rest).
Proof.
  induction seg as [|c seg IH]; intros Hfree.
  - rewrite !str_app_nil_l. cbn [replace_scan].
    assert (startswith old (String "/" rest) = false) as ->; [|done].
    unfold old. cbn [startswith].
    cbn [char_in] in no_slash.
    rewrite Ascii.eqb_sym. by destruct (Ascii.eqb "/" c0).
  - pose proof (no_crossing c seg rest Hfree) as Hno.
    rewrite !str_app_cons in Hno |- *. cbn [replace_scan]. rewrite Hno.
    rewrite IH; [done|]. intros Ho. by apply Hfree, occurs_cons.
Qed.

Lemma scan_placeholder (rest : string) :
  replace_scan old new 0 (old +:+ rest) = new +:+ replace_scan old new 0 rest.
Proof.
  pose proof (replace_scan_piece c0 old' new c0_fresh EmptyString rest) as H.
  rewrite !str_app_nil_l in H. apply H. apply occurs_empty.
Qed.

Lemma scan_segments (seg : string) (segs : list string) :
  Forall (λ s, s = old ∨ ¬ occurs old s) (seg :: segs) →
  replace_scan old new 0 (String.concat "/" (seg :: segs))
  = String.concat "/"
      (map (λ s, if String.eqb s old then new else s) (seg :: segs)).
Proof.
  revert seg. induction segs as [|seg' segs IH]; intros seg Hall.
  - cbn [String.concat map]. inversion Hall as [|? ? [->|Hfree] _]; subst.
    + rewrite String.eqb_refl.
      pose proof (scan_placeholder EmptyString) as H.
      by rewrite str_app_nil_r, str_app_nil_r in H.
    + rewrite replace_scan_absent by done.
      destruct (String.eqb seg old) eqn:E; [|done].
      apply String.eqb_eq in E. subst seg. destruct Hfree.
      exists EmptyString, EmptyString. by rewrite str_app_nil_l, str_app_nil_r.
  - inversion Hall as [|? ? Hseg Hrest]; subst.
    change (String.concat "/" (seg :: seg' :: segs))
      with (seg +:+ String "/" (String.concat "/" (seg' :: segs))).
    change (String.concat "/"
              (map (λ s, if String.eqb s old then new else s)
                 (seg :: seg' :: segs)))
      with ((if String.eqb seg old then new else seg)
            +:+ String "/"
                  (String.concat "/"
                     (map (λ s, if String.eqb s old then new else s)
                        (seg' :: segs)))).
    rewrite <- (IH seg' Hrest).
    destruct Hseg as [->|Hfree].
    + rewrite String.eqb_refl, scan_placeholder.
      pose proof (scan_segment EmptyString
                    (String.concat "/" (seg' :: segs))) as H.
      rewrite !str_app_nil_l in H. rewrite H; [done|]. apply occurs_empty.
    + rewrite scan_segment by done.
      destruct (String.eqb seg old) eqn:E; [|done].
      apply String.eqb_eq in E. subst seg. destruct Hfree.
      exists EmptyString, EmptyString. by rewrite str_app_nil_l, str_app_nil_r.
Qed.

End Replace_segments.

(** The substitution in a repo path, segment by segment. *)
Lemma repo_path_segments (repo_data : RepoData.t) (arch seg : string)
    (segs : list string) :
  RepoData.path repo_data = String.concat "/" (seg :: segs) →
  Forall (λ s, s = "$basearch" ∨ ¬ occurs "$basearch" s) (seg :: segs) →
  repo_path_for repo_data arch
  = String.concat "/" (map (subst_arch arch) (seg :: segs)).
Proof.
  intros Hpath Hall. unfold repo_path_for, str_replace. rewrite Hpath.
  by apply (scan_segments "$" "basearch" arch).
Qed.

(** X23. For a repo path made of segments of which some are the
    placeholder [$basearch] and the others are plain and without the
    placeholder, the URL that is probed for an arch is
    [base/version/path/repodata/repomd.xml] with every placeholder
    segment of the path replaced by the arch. *)
Theorem url_for_arch
    (scheme host : string) (dirs : list string) (version arch : string)
    (repo_data : RepoData.t) (seg : string) (segs : list string)
    (Hscheme : scheme = "http" ∨ scheme = "https")
    (Hhost : plain_host host)
    (Hdirs : Forall plain_segment dirs)
    (Hversion : plain_segment version)
    (Harch : plain_segment arch)
    (Hpath : RepoData.path repo_data = String.concat "/" (seg :: segs))
    (Hsegs : Forall (λ s, s = "$basearch"
                          ∨ (plain_segment s ∧ ¬ occurs "$basearch" s))
               (seg :: segs)) :
  url_for_check (plain_url scheme host dirs) version
    (repo_path_for repo_data arch)
  = plain_url scheme host dirs +:+ "/" +:+ version +:+ "/"
    +:+ String.concat "/" (map (subst_arch arch) (seg :: segs))
    +:+ "/repodata/repomd.xml".
Proof.
  rewrite (repo_path_segments repo_data arch seg segs Hpath).
  2: { eapply Forall_impl; [exact Hsegs|]. intros s [?|[_ ?]]; auto. }
  cbn [map]. apply url_for_check_segments; [done..|].
  change (Forall plain_segment (map (subst_arch arch) (seg :: segs))).
  apply Forall_fmap. eapply Forall_impl; [exact Hsegs|].
  intros s [->|[Hs _]]; cbn; [done|].
  unfold subst_arch. by destruct (String.eqb s "$basearch").
Qed.

Lemma url_for_arch_witness :
  url_for_check (plain_url "https" "example.org" ["almalinux"]) "8"
    (repo_path_for
       {| RepoData.name := "BaseOS"; RepoData.path := "BaseOS/$basearch/os";
          RepoData.arches := []; RepoData.versions := [];
          RepoData.vault := false |} "aarch64")
  = plain_url "https" "example.org" ["almalinux"] +:+ "/" +:+ "8" +:+ "/"
    +:+ String.concat "/"
          (map (subst_arch "aarch64") ["BaseOS"; "$basearch"; "os"])
    +:+ "/repodata/repomd.xml".
Proof.
  apply (url_for_arch "https" "example.org" ["almalinux"] "8" "aarch64"
           {| RepoData.name := "BaseOS"; RepoData.path := "BaseOS/$basearch/os";
              RepoData.arches := []; RepoData.versions := [];
              RepoData.vault := false |} "BaseOS" ["$basearch"; "os"]).
  - by right.
  - apply example_org_plain.
  - repeat constructor; apply plain_sample; set_solver.
  - apply plain_sample; set_solver.
  - apply plain_sample; set_solver.
  - reflexivity.
  - constructor; [|constructor; [|constructor; [|constructor]]].
    + right. split; [apply plain_sample; set_solver|].
      intros Ho%str_in_occurs. discriminate.
    + by left.
    + right. split; [apply plain_sample; set_solver|].
      intros Ho%str_in_occurs. discriminate.
Defined.
